(** * twitterScraping: the ticker scraper of [index.js]

    A shallow embedding of [index.js] (the ticker pattern and its use through
    [String.prototype.match], the count objects, the scroll loop and the
    harvester [scrapeTwitter], the run [scrapeAndPrint] and [main] with its
    interval timer), followed by the properties of the specification.

    Conventions.
    - A JavaScript string is a [list ascii].  The pattern only distinguishes
      the sigil and the word characters, all of them ASCII; every other code
      unit behaves like any other non-word character.
    - A JavaScript number is a [Z]: heights, counts and millisecond timestamps
      are integers far below 2^53, where the arithmetic of the source is exact.
    - A JavaScript object used as a map is an association list in insertion
      order, the order in which [Object.keys] enumerates string keys. *)

From Stdlib Require Import Ascii String.
From Stdlib Require Import List ZArith Lia Bool Arith Permutation.
Import ListNotations.

(** ** Strings *)

Definition jsstring := list ascii.

Notation "'str' s" := (list_ascii_of_string s) (at level 9, s at level 0).

Definition key_eq_dec : forall a b : jsstring, {a = b} + {a <> b} :=
  list_eq_dec ascii_dec.

Definition sigil : ascii := "$"%char.

(** [\w] without the unicode and ignore-case flags: [A-Za-z0-9_]. *)
Definition is_word (c : ascii) : bool :=
  let n := nat_of_ascii c in
  ((48 <=? n) && (n <=? 57)) || ((65 <=? n) && (n <=? 90))
  || (n =? 95) || ((97 <=? n) && (n <=? 122)).

(** ** Regular expressions: the fragment the ticker pattern is written in *)

Inductive regex : Type :=
| Lit (c : ascii)                      (* an escaped literal, here [\$] *)
| Word                                 (* [\w] *)
| Cat (r1 r2 : regex)                  (* concatenation *)
| Quant (lo hi : nat) (r : regex).     (* greedy [r{lo,hi}] *)

(** The backtracking matcher, in continuation style as in ECMAScript's
    pattern semantics: [rmatch r s k] matches [r] at the front of [s] and
    hands what is left to [k].  The quantifier is greedy: one more iteration
    is tried first, and the continuation is tried at the current position
    only once the minimum is reached. *)
Fixpoint rmatch (r : regex) (s : jsstring)
         (k : jsstring -> option jsstring) {struct r} : option jsstring :=
  match r with
  | Lit c =>
      match s with
      | x :: t => if Ascii.eqb x c then k t else None
      | [] => None
      end
  | Word =>
      match s with
      | x :: t => if is_word x then k t else None
      | [] => None
      end
  | Cat a b => rmatch a s (fun s' => rmatch b s' k)
  | Quant lo hi a =>
      (fix rep (lo hi : nat) (s : jsstring) {struct hi} : option jsstring :=
         match hi with
         | 0 => k s
         | S hi' =>
             match rmatch a s (fun s' => rep (pred lo) hi' s') with
             | Some e => Some e
             | None => if lo =? 0 then k s else None
             end
         end) lo hi s
  end.

(** A RegExp object: the pattern and the mutable [lastIndex] that a global
    regex carries between calls. *)
Record RegExp : Type := mkRegExp { source : regex; lastIndex : nat }.

(** [const tickerRegex = /\$\w{3,4}/g;] *)
Definition tickerPattern : regex := Cat (Lit sigil) (Quant 3 4 Word).
Definition tickerRegex : RegExp := mkRegExp tickerPattern 0.

(** The loop of [RegExp.prototype[Symbol.match]] for a global regex, run over
    the suffix [t] that starts at index [i].  [last] is the regex's
    [lastIndex]: positions before it are passed over; at [last] and after,
    RegExpBuiltinExec tries the pattern and moves one position on when it
    fails; a match is collected and sets [lastIndex] to its end (one further
    when the match is empty). *)
Fixpoint matchLoop (rx : regex) (t : jsstring) (i last : nat) : list jsstring :=
  if i <? last then
    match t with
    | [] => []
    | _ :: t' => matchLoop rx t' (S i) last
    end
  else
    match rmatch rx t (fun rest => Some rest) with
    | Some rest =>
        let len := length t - length rest in
        let last' := if len =? 0 then S i else i + len in
        firstn len t ::
          match t with
          | [] => []
          | _ :: t' => matchLoop rx t' (S i) last'
          end
    | None =>
        match t with
        | [] => []
        | _ :: t' => matchLoop rx t' (S i) last
        end
    end.

(** [s.match(rx)] with the [g] flag: [lastIndex] is set to 0 before the loop,
    whatever it was, and is 0 again after the failed exec that ends the loop;
    the result is [null] when there is no match. *)
Definition String_match (s : jsstring) (rx : RegExp)
  : option (list jsstring) * RegExp :=
  let ms := matchLoop (source rx) s 0 0 in
  (match ms with [] => None | _ => Some ms end, mkRegExp (source rx) 0).

(** ** Objects used as maps *)

Definition jsobject := list (jsstring * Z).

Fixpoint get (o : jsobject) (k : jsstring) : option Z :=
  match o with
  | [] => None
  | (k', v) :: o' => if key_eq_dec k' k then Some v else get o' k
  end.

(** [o[k] = v]: an own key keeps its place, a new key goes last. *)
Fixpoint set (o : jsobject) (k : jsstring) (v : Z) : jsobject :=
  match o with
  | [] => [(k, v)]
  | (k', v') :: o' =>
      if key_eq_dec k' k then (k', v) :: o' else (k', v') :: set o' k v
  end.

(** [Object.keys(o)] *)
Definition keys (o : jsobject) : list jsstring := map fst o.

(** [x || 0] on the result of a property read: [undefined] and [0] give 0. *)
Definition or0 (x : option Z) : Z :=
  match x with
  | Some v => v
  | None => 0
  end.

(** The sum of all the counts of a mapping. *)
Definition total (o : jsobject) : Z := fold_right (fun kv acc => snd kv + acc)%Z 0%Z o.

(** ** Symbol extraction (the [forEach] over the tweets in [scrapeTwitter]) *)

(** [tickerCounts[ticker] = (tickerCounts[ticker] || 0) + 1;] *)
Definition countTicker (tickerCounts : jsobject) (ticker : jsstring) : jsobject :=
  set tickerCounts ticker (or0 (get tickerCounts ticker) + 1)%Z.

(** The body of [tweets.forEach(tweet => ...)]: the state is the regex object
    and the counts, both shared by all the tweets of one harvest. *)
Definition countTweet (st : RegExp * jsobject) (tweet : jsstring)
  : RegExp * jsobject :=
  let '(rx, tickerCounts) := st in
  match String_match tweet rx with
  | (Some matches, rx') => (rx', fold_left countTicker matches tickerCounts)
  | (None, rx') => (rx', tickerCounts)
  end.

(** The counts of a harvest, from [let tickerCounts = {}] to the end of the
    [forEach]. *)
Definition extractTickers (tweets : list jsstring) : jsobject :=
  snd (fold_left countTweet tweets (tickerRegex, [])).

(** The Symbol Extractor on one text block: the counting above on a fresh
    object, with the regex object in whatever state ([lastIndex]) earlier
    calls left it.  The result is the mapping and the regex object after the
    call. *)
Definition symbolExtractor (last : nat) (text : jsstring) : RegExp * jsobject :=
  countTweet (mkRegExp tickerPattern last, []) text.

(** The matches of the ticker pattern in a text, as [match] finds them. *)
Definition tickerMatches (text : jsstring) : list jsstring :=
  matchLoop tickerPattern text 0 0.

(** *** The pattern read from the specification

    The specification's words for the same matches: the substrings made of the
    sigil and 3 to 4 word characters, non-overlapping, scanned from left to
    right.  This scanner does not go through the regex matcher: at a sigil it
    takes the word characters that follow, at most four, and keeps the
    substring when there are at least three; [skip] is the number of
    characters of the last match still to pass over. *)
Fixpoint takeWord (n : nat) (s : jsstring) : jsstring :=
  match n, s with
  | S n', c :: t => if is_word c then c :: takeWord n' t else []
  | _, _ => []
  end.

Fixpoint scanTickers (s : jsstring) (skip : nat) : list jsstring :=
  match s with
  | [] => []
  | c :: t =>
      match skip with
      | S skip' => scanTickers t skip'
      | 0 =>
          if Ascii.eqb c sigil then
            let w := takeWord 4 t in
            if 3 <=? length w then (c :: w) :: scanTickers t (length w)
            else scanTickers t 0
          else scanTickers t 0
      end
  end.

(** ** The renderer and the effects of a harvest *)

Inductive logline : Type :=
| LogStartScroll (account : jsstring)   (* Starting to scroll through ... *)
| LogScrolling (newHeight : Z)          (* Scrolling... Current height: ... *)
| LogReachedEnd (account : jsstring)    (* Reached the end of ...'s timeline. *)
| LogScraping (account : jsstring)      (* Scraping account ... *)
| LogMention (ticker : jsstring) (count elapsedMinutes : Z)
| LogAllProcessed                       (* All accounts processed successfully! *)
| LogAgain (minutes : Z).               (* Scraping again in ... minutes... *)

(** The calls a harvest makes on puppeteer and on the console, in order. *)
Inductive event : Type :=
| Launch                 (* puppeteer.launch *)
| NewPage                (* browser.newPage *)
| Goto (account : jsstring)  (* page.goto *)
| EvalHeight             (* page.evaluate('document.body.scrollHeight') *)
| AutoScroll             (* autoScroll(page): one pass of in-page scrolling *)
| WaitFor (ms : Z)       (* waitFor(ms) *)
| WaitForSelector        (* page.waitForSelector('article', 30 s) *)
| Content                (* page.content, parsed by cheerio *)
| Close                  (* browser.close *)
| Log (l : logline).     (* console.log *)

Inductive error : Type :=
| LaunchFailure | NewPageFailure | NavigationFailure | HeightMeasurementFailure
| ScrollFailure | ReadinessTimeout | ContentFailure | CloseFailure.

(** A simulated renderer: what each call on the browser it stands for does.
    [heights n] is the n-th value of [document.body.scrollHeight] ([None]:
    the evaluation throws); [articles] are the texts of the [article]
    elements of the final page ([None]: [page.content] throws). *)
Record renderer : Type := mkRenderer {
  launch_ok : bool;
  newPage_ok : bool;
  goto_ok : bool;
  heights : nat -> option Z;
  autoScroll_ok : nat -> bool;
  selector_ok : bool;
  articles : option (list jsstring);
  close_ok : bool
}.

(** The state of a run: the clock, in milliseconds, and the number of
    browsers launched so far. *)
Record world : Type := mkWorld { clock : Z; launches : nat }.

(** An awaited computation returns, throws, or is still in the scroll loop
    when the fuel of the model is spent. *)
Inductive outcome (A : Type) : Type :=
| Ok (a : A)
| Throw (e : error)
| OutOfFuel.
Arguments Ok {A} a.
Arguments Throw {A} e.
Arguments OutOfFuel {A}.

(** Computations: state passing over the world, with the events emitted. *)
Definition M (A : Type) : Type := world -> outcome A * world * list event.

Definition ret {A} (a : A) : M A := fun w => (Ok a, w, []).

Definition bind {A B} (m : M A) (f : A -> M B) : M B :=
  fun w =>
    match m w with
    | (Ok a, w1, t1) => let '(o, w2, t2) := f a w1 in (o, w2, t1 ++ t2)
    | (Throw e, w1, t1) => (Throw e, w1, t1)
    | (OutOfFuel, w1, t1) => (OutOfFuel, w1, t1)
    end.

Definition throw {A} (e : error) : M A := fun w => (Throw e, w, []).
Definition diverge {A} : M A := fun w => (OutOfFuel, w, []).

Declare Scope harvest_scope.
Delimit Scope harvest_scope with harvest.
Notation "x <- m ;; k" := (bind m (fun x => k))
  (at level 100, m at next level, right associativity) : harvest_scope.
Notation "m ;; k" := (bind m (fun _ => k))
  (at level 100, right associativity) : harvest_scope.
Open Scope harvest_scope.

Section Harvest.

(** The environment of a run: how long each call takes, the browser that the
    n-th [puppeteer.launch] of the run yields, the configured accounts and
    the number of scroll cycles the model follows. *)
Variable dur : event -> Z.
Variable puppeteer : nat -> renderer.
Variable accounts : list jsstring.
Variable fuel : nat.

(** A call is made (recorded, and the clock moves on) and then returns or
    throws. *)
Definition call (e : event) (ok : bool) (err : error) : M unit :=
  fun w =>
    (if ok then Ok tt else Throw err,
     mkWorld (clock w + dur e) (launches w), [e]).

Definition log (l : logline) : M unit := fun w => (Ok tt, w, [Log l]).

(** [new Date()] *)
Definition newDate : M Z := fun w => (Ok (clock w), w, []).

Definition launch : M renderer :=
  fun w =>
    let browser := puppeteer (launches w) in
    (if launch_ok browser then Ok browser else Throw LaunchFailure,
     mkWorld (clock w + dur Launch) (S (launches w)), [Launch]).

Definition evaluateHeight (page : renderer) (n : nat) : M Z :=
  call EvalHeight true HeightMeasurementFailure ;;
  match heights page n with
  | Some h => ret h
  | None => throw HeightMeasurementFailure
  end.

Definition scrollPause : Z := 3000.

(** The [while (!reachedEnd)] loop.  [cycle] counts the cycles completed so
    far; the measurement of cycle [n] is [heights page n], the height read
    before the loop being [heights page 0]. *)
Fixpoint scrollLoop (n : nat) (page : renderer) (account : jsstring)
         (cycle : nat) (previousHeight : Z) : M unit :=
  match n with
  | 0 => diverge
  | S n' =>
      call AutoScroll (autoScroll_ok page cycle) ScrollFailure ;;
      call (WaitFor scrollPause) true ScrollFailure ;;
      newHeight <- evaluateHeight page (S cycle) ;;
      if (newHeight =? previousHeight)%Z then
        log (LogReachedEnd account)
      else
        log (LogScrolling newHeight) ;;
        scrollLoop n' page account (S cycle) newHeight
  end.

(** The scroll-completion detector: the first measurement and the loop. *)
Definition scrollToEnd (page : renderer) (account : jsstring) : M unit :=
  previousHeight <- evaluateHeight page 0 ;;
  scrollLoop fuel page account 0 previousHeight.

Definition scrapeTwitter (account : jsstring) : M jsobject :=
  browser <- launch ;;
  call NewPage (newPage_ok browser) NewPageFailure ;;
  call (Goto account) (goto_ok browser) NavigationFailure ;;
  log (LogStartScroll account) ;;
  scrollToEnd browser account ;;
  call WaitForSelector (selector_ok browser) ReadinessTimeout ;;
  tweets <- (call Content true ContentFailure ;;
             match articles browser with
             | Some tweets => ret tweets
             | None => throw ContentFailure
             end) ;;
  let tickerCounts := extractTickers tweets in
  call Close (close_ok browser) CloseFailure ;;
  ret tickerCounts.

(** ** The aggregation run *)

(** The [forEach] over [Object.keys(results)]:
    [allTickerCounts[ticker] = (allTickerCounts[ticker] || 0) + results[ticker]].
    [results[ticker]] is read on an own key of [results]. *)
Definition mergeCounts (allTickerCounts results : jsobject) : jsobject :=
  fold_left
    (fun all ticker =>
       set all ticker (or0 (get all ticker) + or0 (get results ticker))%Z)
    (keys results) allTickerCounts.

(** The [for (const account of accounts)] loop. *)
Fixpoint forAccounts (l : list jsstring) (allTickerCounts : jsobject)
  : M jsobject :=
  match l with
  | [] => ret allTickerCounts
  | account :: rest =>
      log (LogScraping account) ;;
      results <- scrapeTwitter account ;;
      forAccounts rest (mergeCounts allTickerCounts results)
  end.

(** [Math.round((currentTime - startTime) / 1000 / 60)] on integer
    milliseconds: [Math.round] is the floor of its argument plus one half. *)
Definition elapsed (currentTime startTime : Z) : Z :=
  ((currentTime - startTime + 30000) / 60000)%Z.

Fixpoint printCounts (ks : list jsstring) (allTickerCounts : jsobject)
         (elapsedMinutes : Z) : M unit :=
  match ks with
  | [] => ret tt
  | ticker :: ks' =>
      log (LogMention ticker (or0 (get allTickerCounts ticker)) elapsedMinutes) ;;
      printCounts ks' allTickerCounts elapsedMinutes
  end.

(** [scrapeAndPrint]; [startTime] is the constant of [main] it closes over. *)
Definition scrapeAndPrint (startTime : Z) : M unit :=
  allTickerCounts <- forAccounts accounts [] ;;
  currentTime <- newDate ;;
  let elapsedMinutes := elapsed currentTime startTime in
  printCounts (keys allTickerCounts) allTickerCounts elapsedMinutes ;;
  log LogAllProcessed.

End Harvest.

(** ** [main] and its interval timer *)

(** One invocation of [scrapeAndPrint] as the event loop sees it: when it was
    triggered, how it ended, the clock when it ended and what it emitted. *)
Record run : Type := mkRun {
  trigger : Z;
  result : outcome unit;
  finished : Z;
  output : list event
}.

Definition accounts : list jsstring :=
  [str "Mr_Derivatives"; str "warrior_0719"; str "ChartingProdigy";
   str "allstarcharts"; str "yuriymatso"; str "TriggerTrades";
   str "AdamMancini4"; str "CordovaTrades"; str "Barchart"; str "RoyLMattox"].

(** [const interval = 15 * 60 * 1000;] *)
Definition interval : Z := 15 * 60 * 1000.

(** The scroll cycles and the calls of [browser.close] among some events. *)
Definition cycles (evs : list event) : nat :=
  length (filter (fun e => match e with AutoScroll => true | _ => false end) evs).

Definition closes (evs : list event) : nat :=
  length (filter (fun e => match e with Close => true | _ => false end) evs).

Definition rejected {A : Type} (o : outcome A) : bool :=
  match o with
  | Throw _ => true
  | _ => false
  end.

Section Main.

(** The environment of the process: the durations of the calls, the browsers
    of each run ([browsers k n]: the n-th launch of run [k]), the scroll
    cycles followed, and whether the runtime ends the process when the promise
    of a timer callback is rejected and nothing handles it. *)
Variable dur : event -> Z.
Variable browsers : nat -> nat -> renderer.
Variable fuel : nat.
Variable exitOnRejection : bool.

Definition runAt (t : Z) (m : M unit) : run :=
  let '(o, w, evs) := m (mkWorld t 0) in
  mkRun t o (clock w) evs.

(** The callback given to [setInterval]. *)
Definition timerCallback (k : nat) (startTime : Z) : M unit :=
  log (LogAgain (interval / 1000 / 60)) ;;
  scrapeAndPrint dur (browsers k) accounts fuel startTime.

(** [setInterval(callback, interval)], armed at [armed]: the callback is
    called at [armed + interval], [armed + 2 * interval], ...; the timer does
    not wait for the promise the [async] callback returns.  [n] is the number
    of firings followed, [k] the number of the next one.  Runs that overlap
    are recorded each on its own: they share nothing but [startTime].  With
    [exitOnRejection] the list stops after the first rejected run in the
    order of the firings; these are the runs of the process when that run
    rejects before the next firing, and a run that outlasts the interval is
    still recorded whole. *)
Fixpoint timerRuns (armed startTime : Z) (k n : nat) : list run :=
  match n with
  | 0 => []
  | S n' =>
      let r := runAt (armed + Z.of_nat k * interval) (timerCallback k startTime) in
      r :: (if exitOnRejection && rejected (result r) then []
            else timerRuns armed startTime (S k) n')
  end.

(** [main], started at time [t0]: [startTime] is taken, the first run is
    awaited, and only when it has returned is the timer armed. *)
Definition main (t0 : Z) (n : nat) : list run :=
  let startTime := t0 in
  let r0 := runAt t0 (scrapeAndPrint dur (browsers 0) accounts fuel startTime) in
  match result r0 with
  | Ok _ => r0 :: timerRuns (finished r0) startTime 1 n
  | _ => [r0]
  end.

End Main.

(** ** Vocabulary of the statements and simulated environments *)

(** Every count of an object that only [countTicker] has written is at least
    one, and its keys are matches that were counted. *)
Definition counted (ms : list jsstring) (o : jsobject) : Prop :=
  forall k v, In (k, v) o -> In k ms /\ (1 <= v)%Z.

(** A text ends a run of word characters when it is empty or starts with a
    character that is not one. *)
Definition ends_run (post : jsstring) : Prop :=
  match post with
  | [] => True
  | c :: _ => is_word c = false
  end.

(** A ticker symbol: the sigil and exactly three or four word characters. *)
Definition is_ticker (k : jsstring) : Prop :=
  exists w, k = sigil :: w /\ (length w = 3 \/ length w = 4)
            /\ forallb is_word w = true.

(** Runs a computation as far as the known results of its calls allow. *)
Ltac run :=
  cbv [bind evaluateHeight call log ret throw diverge launch newDate];
  cbn [clock launches].

(** The measurements the loop compares, seen from a loop entered after
    [cycle] cycles with [previousHeight]: the height it was entered with,
    then the heights measured by its own cycles. *)
Definition seen (page : renderer) (cycle : nat) (previousHeight : Z) (i : nat)
  : option Z :=
  match i with
  | 0 => Some previousHeight
  | S _ => heights page (cycle + i)
  end.

(** A page whose successive heights are those of the list; measuring beyond
    the list throws. *)
Definition simulatedPage (hs : list Z) : renderer :=
  mkRenderer true true true (nth_error hs) (fun _ => true) true (Some []) true.

(** The events of the scroll-completion detector. *)
Definition scroll_event (e : event) : Prop :=
  match e with
  | AutoScroll | WaitFor _ | EvalHeight
  | Log (LogScrolling _) | Log (LogReachedEnd _) => True
  | _ => False
  end.

(** What the reporting step of a run prints, among some events: the lines of
    the tally and the closing line. *)
Definition reported (evs : list event) : list event :=
  filter (fun e => match e with
                   | Log (LogMention _ _ _) | Log LogAllProcessed => true
                   | _ => false
                   end)
         evs.

(** The browsers launched among some events. *)
Definition launched (evs : list event) : nat :=
  length (filter (fun e => match e with Launch => true | _ => false end) evs).

(** The number of calls of [browser.close] that an outcome of the harvester
    goes with: one when it returns, or when [close] is what throws. *)
Definition closed {A : Type} (o : outcome A) : nat :=
  match o with
  | Ok _ | Throw CloseFailure => 1
  | _ => 0
  end.

(** The article texts a browser ends up showing. *)
Definition tweetsOf (r : renderer) : list jsstring :=
  match articles r with
  | Some tweets => tweets
  | None => []
  end.

Ltac early_exit :=
  repeat split; first [reflexivity | discriminate | intros; discriminate].

(** A browser whose navigation throws. *)
Definition unreachable : renderer :=
  mkRenderer true true false (fun _ => None) (fun _ => true) true None true.

(** The tally after harvests that returned [results], one after the other. *)
Definition mergeAll (results : list jsobject) (allTickerCounts : jsobject)
  : jsobject :=
  fold_left mergeCounts results allTickerCounts.

(** The counts of the browsers launched from the [k]-th on. *)
Definition harvests (pp : nat -> renderer) (k len : nat) : list jsobject :=
  map (fun i => extractTickers (tweetsOf (pp i))) (seq k len).

(** The report of a tally: one line per key, in the order of the keys. *)
Definition reportLines (allTickerCounts : jsobject) (elapsedMinutes : Z)
  : list event :=
  map (fun ticker =>
         Log (LogMention ticker (or0 (get allTickerCounts ticker)) elapsedMinutes))
      (keys allTickerCounts).

(** An object has each key once. *)
Definition wf (o : jsobject) : Prop := NoDup (keys o).

(** All the counts of a mapping are at least one. *)
Definition positive (o : jsobject) : Prop :=
  forall k v, In (k, v) o -> (1 <= v)%Z.

(** What a merge does to the entry of a key: [a] is the entry in the tally,
    [r] the entry in the results. *)
Definition addCount (a r : option Z) : option Z :=
  match r with
  | Some v => Some (or0 a + v)%Z
  | None => a
  end.

(** The sum of some counts. *)
Definition sumZ (l : list Z) : Z := fold_right Z.add 0%Z l.

(** The three per-source results of the specification's example. *)
Definition resultsA : jsobject := [(str "$AAPL", 2%Z)].

Definition resultsB : jsobject := [(str "$AAPL", 1%Z); (str "$TSLA", 3%Z)].

Definition resultsC : jsobject := [].

(** A page with the given successive heights and article texts, on which every
    call succeeds. *)
Definition pageWith (hs : list Z) (tweets : list jsstring) : renderer :=
  mkRenderer true true true (nth_error hs) (fun _ => true) true (Some tweets) true.

(** Every browser shows one tweet that mentions $AAPL, on a page that does
    not grow. *)
Definition steadyBrowsers (k i : nat) : renderer :=
  pageWith [500; 500]%Z [str "$AAPL to the moon"].

(** A computation whose report lines all give the minutes between
    [startTime] and the clock at its end. *)
Definition reports_since (startTime : Z) (m : M unit) : Prop :=
  forall (w : world) (ticker : jsstring) (c em : Z),
    let '(_, w', evs) := m w in
    In (Log (LogMention ticker c em)) evs -> em = elapsed (clock w') startTime.

(** Every call on the browser takes one second, and a pause lasts as long as
    asked. *)
Definition oneSecond (e : event) : Z :=
  match e with
  | WaitFor ms => ms
  | _ => 1000
  end.

(** The second run of a process in which every call takes a second and every
    pause three. *)
Definition secondRun : run :=
  nth 1 (main oneSecond steadyBrowsers 3 false 0 1) (mkRun 0 OutOfFuel 0 []).

(** The first three runs of that process. *)
Definition firstRuns : list run := main oneSecond steadyBrowsers 3 false 0 2.

(** The browsers of a run whose second source cannot be reached. *)
Definition secondUnreachable (i : nat) : renderer :=
  match i with
  | 1 => unreachable
  | _ => steadyBrowsers 0 i
  end.

(** The events of that run: those of the first harvest and those of the
    second, which throws. *)
Definition abortedRun : list event * list event :=
  (snd (forAccounts oneSecond secondUnreachable 3 [str "Barchart"] []
                    (mkWorld 0 0)),
   snd (scrapeTwitter oneSecond secondUnreachable 3 (str "RoyLMattox")
                      (mkWorld 12000 1))).

(** ** [autoScroll]: the scrolling inside the page

    The function that [autoScroll] evaluates in the page: a timer fires every
    100 ms; each firing scrolls by [distance], adds it to [totalHeight] and
    stops the timer once [totalHeight] has reached
    [document.body.scrollHeight].  [scrollHeight n] is the value of that
    property at the firing of number [n] (from 0); the page may grow while it
    is scrolled.  The result is the number of firings and the final
    [totalHeight], or [None] when the timer is still running after [n]
    firings. *)
Definition distance : Z := 100.

Fixpoint autoScrollTimer (n : nat) (scrollHeight : nat -> Z) (fired : nat)
         (totalHeight : Z) : option (nat * Z) :=
  match n with
  | 0 => None
  | S n' =>
      let totalHeight' := (totalHeight + distance)%Z in
      if (scrollHeight fired <=? totalHeight')%Z
      then Some (S fired, totalHeight')
      else autoScrollTimer n' scrollHeight (S fired) totalHeight'
  end.

Definition autoScroll (n : nat) (scrollHeight : nat -> Z) : option (nat * Z) :=
  autoScrollTimer n scrollHeight 0 0.

(** A page that is 800 px higher at every measurement, for ever. *)
Definition growingPage : renderer :=
  mkRenderer true true true (fun i => Some (Z.of_nat i * 800)%Z)
             (fun _ => true) true (Some []) true.

(** The calls of a harvest that runs to its end, around the events of its
    scrolling. *)
Definition harvestCalls (account : jsstring) (scrolling : list event)
  : list event :=
  [Launch; NewPage; Goto account; Log (LogStartScroll account)]
    ++ scrolling ++ [WaitForSelector; Content; Close].

(** The time the calls among some events took; logging takes none. *)
Definition spent (dur : event -> Z) (evs : list event) : Z :=
  fold_right (fun e acc => (match e with Log _ => 0 | _ => dur e end + acc)%Z)
             0%Z evs.

(** The browsers open after some events, from [open] of them before: [None]
    when a browser is launched while one is open, or closed while none is. *)
Fixpoint sessions (open : nat) (evs : list event) : option nat :=
  match evs with
  | [] => Some open
  | Launch :: evs' => if open =? 0 then sessions 1 evs' else None
  | Close :: evs' => if open =? 1 then sessions 0 evs' else None
  | _ :: evs' => sessions open evs'
  end.

(** The accounts navigated to, in order. *)
Definition navigated (evs : list event) : list jsstring :=
  flat_map (fun e => match e with Goto account => [account] | _ => [] end) evs.

(** Every call on the browser takes half a second, and a pause lasts as long
    as asked (a negative delay counts as none). *)
Definition halfSecond (e : event) : Z :=
  match e with
  | WaitFor ms => Z.max 0 ms
  | _ => 500
  end.

(** A text cut into what precedes the first piece and the pieces, each with
    what follows it. *)
Definition weave (before : jsstring) (pieces : list (jsstring * jsstring))
  : jsstring :=
  before ++ concat (map (fun p => fst p ++ snd p) pieces).

(** The keys an object gets when [ms] are written to it one after the other,
    from the keys [ks] it has: a key that is there keeps its place, a new one
    goes last. *)
Definition remember (ks : list jsstring) (m : jsstring) : list jsstring :=
  if in_dec key_eq_dec m ks then ks else ks ++ [m].

Definition firstSeen (ms ks : list jsstring) : list jsstring :=
  fold_left remember ms ks.

(** Two sources: the first shows two tweets, the second one. *)
Definition twoSources (i : nat) : renderer :=
  match i with
  | 0 => pageWith [500; 500]%Z [str "$TSLA up, $AAPL down"; str "more $TSLA"]
  | _ => pageWith [900; 900]%Z [str "$GME and $AAPL, again $GME"]
  end.


(** The browsers of a run whose third source shows a page that grows for
    ever. *)
Definition thirdGrowing (i : nat) : renderer :=
  match i with
  | 2 => growingPage
  | _ => steadyBrowsers 0 i
  end.

(** Three sources whose harvests are the per-source results of the
    specification's example, in the order {$AAPL:1,$TSLA:3}, {}, {$AAPL:2}. *)
Definition exampleSources (i : nat) : renderer :=
  match i with
  | 0 => pageWith [500; 500]%Z [str "$AAPL and $TSLA"; str "$TSLA, $TSLA"]
  | 1 => pageWith [700; 700]%Z []
  | _ => pageWith [900; 900]%Z [str "$AAPL $AAPL"]
  end.

(** The second run of a process in which every call takes half a second. *)
Definition secondRunHalf : run :=
  nth 1 (main halfSecond steadyBrowsers 3 false 0 1) (mkRun 0 OutOfFuel 0 []).

(** * Properties *)

(** ** Objects *)

Lemma get_set_same (o : jsobject) (k : jsstring) (v : Z) :
  get (set o k v) k = Some v.
Proof.
  induction o as [|[k' v'] o IH]; simpl.
  - destruct (key_eq_dec k k); congruence.
  - destruct (key_eq_dec k' k) as [E|N]; simpl.
    + destruct (key_eq_dec k' k); congruence.
    + destruct (key_eq_dec k' k); congruence.
Qed.

Lemma get_set_other (o : jsobject) (k k0 : jsstring) (v : Z) :
  k <> k0 -> get (set o k v) k0 = get o k0.
Proof.
  intros D. induction o as [|[k' v'] o IH]; simpl.
  - destruct (key_eq_dec k k0); congruence.
  - destruct (key_eq_dec k' k) as [E|N]; simpl.
    + subst k'. destruct (key_eq_dec k k0); congruence.
    + destruct (key_eq_dec k' k0); congruence.
Qed.

Lemma total_set (o : jsobject) (k : jsstring) (v : Z) :
  total (set o k v) = (total o - or0 (get o k) + v)%Z.
Proof.
  induction o as [|[k' v'] o IH]; simpl.
  - lia.
  - destruct (key_eq_dec k' k); simpl; [lia|]. rewrite IH. lia.
Qed.

Lemma keys_set (o : jsobject) (k : jsstring) (v : Z) :
  keys (set o k v) = match get o k with Some _ => keys o | None => keys o ++ [k] end.
Proof.
  induction o as [|[k' v'] o IH]; simpl; [reflexivity|].
  destruct (key_eq_dec k' k); simpl; [reflexivity|].
  rewrite IH. destruct (get o k); reflexivity.
Qed.

Lemma get_None_keys (o : jsobject) (k : jsstring) :
  get o k = None <-> ~ In k (keys o).
Proof.
  induction o as [|[k' v'] o IH]; simpl.
  - tauto.
  - destruct (key_eq_dec k' k); split; intros; try congruence; tauto.
Qed.

(** ** The pattern *)

Example ex_matches :
  tickerMatches (str "$AAPL up, $AAPL again, $TSLA $AB $ABCDE")
  = [str "$AAPL"; str "$AAPL"; str "$TSLA"; str "$ABCD"].
Proof. vm_compute. reflexivity. Qed.

Lemma takeWord_prefix (n : nat) (s : jsstring) :
  firstn (length (takeWord n s)) s = takeWord n s.
Proof.
  revert s. induction n as [|n IH]; intros [|c t]; simpl; try reflexivity.
  destruct (is_word c); simpl; [now rewrite IH | reflexivity].
Qed.

Lemma takeWord_length (n : nat) (s : jsstring) :
  length (takeWord n s) <= n /\ length (takeWord n s) <= length s.
Proof.
  revert s. induction n as [|n IH]; intros [|c t]; simpl; try lia.
  destruct (is_word c); simpl; [specialize (IH t)|]; lia.
Qed.

Lemma takeWord_word (n : nat) (s : jsstring) :
  forallb is_word (takeWord n s) = true.
Proof.
  revert s. induction n as [|n IH]; intros [|c t]; simpl; try reflexivity.
  destruct (is_word c) eqn:E; simpl; [now rewrite E, IH | reflexivity].
Qed.

(** What the matcher does with the ticker pattern at the front of a text. *)
Lemma rmatch_ticker (t : jsstring) :
  rmatch tickerPattern t (fun rest => Some rest) =
  match t with
  | c :: t' =>
      if Ascii.eqb c sigil then
        let w := takeWord 4 t' in
        if 3 <=? length w then Some (skipn (length w) t') else None
      else None
  | [] => None
  end.
Proof.
  destruct t as [|c t]; [reflexivity|]. simpl.
  destruct (Ascii.eqb c sigil); [|reflexivity].
  destruct t as [|c1 t]; [reflexivity|]. simpl.
  destruct (is_word c1); [|reflexivity].
  destruct t as [|c2 t]; [reflexivity|]. simpl.
  destruct (is_word c2); [|reflexivity].
  destruct t as [|c3 t]; [reflexivity|]. simpl.
  destruct (is_word c3); [|reflexivity].
  destruct t as [|c4 t]; [reflexivity|]. simpl.
  destruct (is_word c4); reflexivity.
Qed.

(** The loop of [match] on the ticker pattern is the scanner of the
    specification; the characters to pass over are those before
    [lastIndex]. *)
Lemma matchLoop_scan (t : jsstring) (i last : nat) :
  matchLoop tickerPattern t i last = scanTickers t (last - i).
Proof.
  revert i last. induction t as [|c t IH]; intros i last.
  - simpl. destruct (i <? last); reflexivity.
  - cbn [matchLoop]. destruct (i <? last) eqn:L.
    + apply Nat.ltb_lt in L. rewrite IH.
      replace (last - i) with (S (last - S i)) by lia. reflexivity.
    + apply Nat.ltb_ge in L. replace (last - i) with 0 by lia.
      rewrite rmatch_ticker. cbn [scanTickers].
      destruct (Ascii.eqb c sigil).
      * cbv zeta. destruct (3 <=? length (takeWord 4 t)) eqn:W.
        -- pose proof (takeWord_length 4 t) as [_ Hl].
           rewrite length_skipn.
           replace (length (c :: t) - (length t - length (takeWord 4 t)))
             with (S (length (takeWord 4 t))) by (cbn [length]; lia).
           cbn [firstn Nat.eqb]. rewrite takeWord_prefix, IH.
           replace (i + S (length (takeWord 4 t)) - S i)
             with (length (takeWord 4 t)) by lia.
           reflexivity.
        -- rewrite IH. replace (last - S i) with 0 by lia. reflexivity.
      * rewrite IH. replace (last - S i) with 0 by lia. reflexivity.
Qed.

Lemma tickerMatches_scan (text : jsstring) :
  tickerMatches text = scanTickers text 0.
Proof. unfold tickerMatches. now rewrite matchLoop_scan. Qed.

(** ** Counting the matches *)

Lemma countTicker_total (o : jsobject) (k : jsstring) :
  total (countTicker o k) = (total o + 1)%Z.
Proof. unfold countTicker. rewrite total_set. lia. Qed.

Lemma countTickers_total (ms : list jsstring) (o : jsobject) :
  total (fold_left countTicker ms o) = (total o + Z.of_nat (length ms))%Z.
Proof.
  revert o. induction ms as [|m ms IH]; intros o; simpl fold_left.
  - simpl. lia.
  - rewrite IH, countTicker_total. simpl length. lia.
Qed.

Lemma countTicker_get (o : jsobject) (k k0 : jsstring) :
  or0 (get (countTicker o k) k0) =
  (or0 (get o k0) + if key_eq_dec k k0 then 1 else 0)%Z.
Proof.
  unfold countTicker. destruct (key_eq_dec k k0) as [E|N].
  - subst. now rewrite get_set_same.
  - rewrite get_set_other by assumption. lia.
Qed.

Lemma countTickers_get (ms : list jsstring) (o : jsobject) (k : jsstring) :
  or0 (get (fold_left countTicker ms o) k) =
  (or0 (get o k) + Z.of_nat (count_occ key_eq_dec ms k))%Z.
Proof.
  revert o. induction ms as [|m ms IH]; intros o; simpl fold_left.
  - simpl. lia.
  - rewrite IH, countTicker_get. simpl count_occ.
    destruct (key_eq_dec m k); lia.
Qed.

Lemma In_set (o : jsobject) (k k0 : jsstring) (v v0 : Z) :
  In (k, v) (set o k0 v0) -> (k = k0 /\ v = v0) \/ In (k, v) o.
Proof.
  induction o as [|[k' v'] o IH]; simpl.
  - intros [E|[]]. inversion E. auto.
  - destruct (key_eq_dec k' k0) as [E|N]; simpl.
    + intros [H|H]; [inversion H; subst; auto | auto].
    + intros [H|H]; [auto | destruct (IH H); auto].
Qed.

Lemma get_In (o : jsobject) (k : jsstring) (v : Z) :
  get o k = Some v -> In (k, v) o.
Proof.
  induction o as [|[k' v'] o IH]; simpl; [discriminate|].
  destruct (key_eq_dec k' k); intros H; [inversion H; subst; auto | auto].
Qed.

Lemma countTicker_counted (ms : list jsstring) (o : jsobject) (m : jsstring) :
  counted ms o -> In m ms -> counted ms (countTicker o m).
Proof.
  intros C Hm k v H. unfold countTicker in H.
  apply In_set in H. destruct H as [[-> ->]|H]; [|now apply C].
  split; [assumption|].
  destruct (get o m) as [v'|] eqn:G; simpl; [|lia].
  apply get_In in G. apply C in G. lia.
Qed.

Lemma countTickers_counted (ms all : list jsstring) (o : jsobject) :
  counted all o -> incl ms all -> counted all (fold_left countTicker ms o).
Proof.
  revert o. induction ms as [|m ms IH]; intros o C I; simpl; [assumption|].
  apply IH.
  - apply countTicker_counted; [assumption | apply I; now left].
  - intros x Hx. apply I. now right.
Qed.

(** What one tweet adds to the counts, and the state it leaves the regex in. *)
Lemma countTweet_spec (rx : RegExp) (o : jsobject) (tweet : jsstring) :
  countTweet (rx, o) tweet =
  (mkRegExp (source rx) 0,
   fold_left countTicker (matchLoop (source rx) tweet 0 0) o).
Proof.
  unfold countTweet, String_match.
  destruct (matchLoop (source rx) tweet 0 0); reflexivity.
Qed.

Lemma symbolExtractor_spec (last : nat) (text : jsstring) :
  symbolExtractor last text =
  (tickerRegex, fold_left countTicker (tickerMatches text) []).
Proof. unfold symbolExtractor. now rewrite countTweet_spec. Qed.

Lemma fold_countTweet (tweets : list jsstring) (rx : RegExp) (o : jsobject) :
  source rx = tickerPattern ->
  snd (fold_left countTweet tweets (rx, o)) =
  fold_left countTicker (concat (map tickerMatches tweets)) o.
Proof.
  revert rx o. induction tweets as [|t ts IH]; intros rx o S.
  - reflexivity.
  - cbn [fold_left map concat].
    rewrite countTweet_spec, IH by exact S.
    rewrite fold_left_app, S. reflexivity.
Qed.

(** The counts of a harvest are the counts of all the matches of its tweets. *)
Lemma extractTickers_spec (tweets : list jsstring) :
  extractTickers tweets =
  fold_left countTicker (concat (map tickerMatches tweets)) [].
Proof. unfold extractTickers. now apply fold_countTweet. Qed.

(** C9. Extraction is a function of the text alone: it returns a mapping for
    every text and every state of the regex object, the mapping does not
    depend on that state, the call leaves the regex object as it was created,
    and a second extraction of the same text, run on the state the first one
    left, yields the identical mapping. *)
Theorem extractor_deterministic :
  forall (text : jsstring) (last last' : nat),
    snd (symbolExtractor last text) = snd (symbolExtractor last' text) /\
    fst (symbolExtractor last text) = tickerRegex /\
    (let '(rx1, m1) := symbolExtractor last text in
     let '(rx2, m2) := symbolExtractor (lastIndex rx1) text in
     m1 = m2 /\ rx1 = rx2).
Proof.
  intros text last last'. rewrite !symbolExtractor_spec. cbn [fst snd].
  split; [reflexivity|]. split; [reflexivity|].
  split; reflexivity.
Qed.

(** ** The shape of the matches *)

Lemma word_not_sigil (c : ascii) : is_word c = true -> Ascii.eqb c sigil = false.
Proof.
  intros W. destruct (Ascii.eqb c sigil) eqn:E; [|reflexivity].
  apply Ascii.eqb_eq in E. subst c. vm_compute in W. discriminate.
Qed.

Lemma sigil_not_word : is_word sigil = false.
Proof. reflexivity. Qed.

Lemma takeWord_run (n : nat) (run post : jsstring) :
  forallb is_word run = true -> ends_run post ->
  takeWord n (run ++ post) = firstn n run.
Proof.
  revert run. induction n as [|n IH]; intros run W Hp.
  - destruct run; destruct post; reflexivity.
  - destruct run as [|c run]; simpl in *.
    + destruct post as [|c post]; [reflexivity|]. simpl in Hp. now rewrite Hp.
    + apply andb_true_iff in W. destruct W as [Wc W]. rewrite Wc.
      now rewrite IH.
Qed.

Lemma takeWord_before_nonword (n : nat) (p rest : jsstring) (c : ascii) :
  is_word c = false -> takeWord n (p ++ c :: rest) = takeWord n p.
Proof.
  intros Hc. revert p. induction n as [|n IH]; intros [|x p]; simpl;
    try reflexivity.
  - now rewrite Hc.
  - destruct (is_word x); [now rewrite IH | reflexivity].
Qed.

Lemma scan_before_nonword (pre rest : jsstring) (c : ascii) (skip : nat) :
  is_word c = false -> skip <= length pre ->
  scanTickers (pre ++ c :: rest) skip
  = scanTickers pre skip ++ scanTickers (c :: rest) 0.
Proof.
  intros Hc. revert skip. induction pre as [|x pre IH]; intros skip L.
  - simpl in L. replace skip with 0 by lia. reflexivity.
  - cbn [length] in L. rewrite <- app_comm_cons.
    cbn [scanTickers]. destruct skip as [|k].
    + rewrite (takeWord_before_nonword 4 pre rest c Hc).
      pose proof (takeWord_length 4 pre) as [_ Hl].
      destruct (Ascii.eqb x sigil); [|apply IH; lia].
      destruct (3 <=? length (takeWord 4 pre)).
      * rewrite IH by assumption. reflexivity.
      * apply IH; lia.
    + apply IH; lia.
Qed.

Lemma scan_words (ws post : jsstring) (skip : nat) :
  forallb is_word ws = true -> skip <= length ws ->
  scanTickers (ws ++ post) skip = scanTickers post 0.
Proof.
  revert skip. induction ws as [|x ws IH]; intros skip W L.
  - simpl in L. replace skip with 0 by lia. reflexivity.
  - cbn [length] in L. cbn [forallb] in W. rewrite <- app_comm_cons.
    cbn [scanTickers].
    apply andb_true_iff in W. destruct W as [Wx W].
    destruct skip as [|k]; [|apply IH; [assumption | lia]].
    rewrite (word_not_sigil x Wx). apply IH; [assumption | lia].
Qed.

(** The matches around a sigil that a maximal run of at least three word
    characters follows: the matches of what precedes, the sigil with the
    first three or four characters of the run, the matches of what follows
    the run. *)
Lemma scan_at_run (pre run post : jsstring) :
  forallb is_word run = true -> 3 <= length run -> ends_run post ->
  scanTickers (pre ++ sigil :: run ++ post) 0
  = scanTickers pre 0
      ++ [sigil :: firstn (Nat.min (length run) 4) run]
      ++ scanTickers post 0.
Proof.
  intros W L E.
  rewrite scan_before_nonword by (try apply sigil_not_word; lia).
  f_equal. cbn [scanTickers].
  replace (Ascii.eqb sigil sigil) with true by reflexivity.
  rewrite takeWord_run by assumption. cbv zeta.
  rewrite length_firstn.
  replace (3 <=? Nat.min 4 (length run)) with true
    by (symmetry; apply Nat.leb_le; lia).
  rewrite scan_words by (try assumption; lia).
  destruct (le_lt_dec 4 (length run)) as [G|G].
  - replace (Nat.min (length run) 4) with 4 by lia. reflexivity.
  - replace (Nat.min (length run) 4) with (length run) by lia.
    rewrite firstn_all, firstn_all2 by lia. reflexivity.
Qed.

Lemma scan_shape (s : jsstring) (skip : nat) (m : jsstring) :
  In m (scanTickers s skip) -> is_ticker m.
Proof.
  revert skip. induction s as [|c t IH]; intros skip; cbn [scanTickers].
  - intros [].
  - destruct skip as [|k]; [|apply IH].
    destruct (Ascii.eqb c sigil) eqn:E; [|apply IH].
    destruct (3 <=? length (takeWord 4 t)) eqn:L; [|apply IH].
    intros [H|H]; [|eapply IH; eassumption].
    apply Ascii.eqb_eq in E. apply Nat.leb_le in L. subst.
    exists (takeWord 4 t). split; [reflexivity|].
    pose proof (takeWord_length 4 t) as [Hn _].
    split; [lia | apply takeWord_word].
Qed.

Lemma extractTickers_counted (tweets : list jsstring) :
  counted (concat (map tickerMatches tweets)) (extractTickers tweets).
Proof.
  rewrite extractTickers_spec. apply countTickers_counted.
  - intros k v [].
  - apply incl_refl.
Qed.

Lemma extractTickers_keys (tweets : list jsstring) (k : jsstring) (v : Z) :
  In (k, v) (extractTickers tweets) -> is_ticker k /\ (1 <= v)%Z.
Proof.
  intros H. apply extractTickers_counted in H. destruct H as [H V].
  split; [|assumption].
  apply in_concat in H. destruct H as [ms [Hms Hk]].
  apply in_map_iff in Hms. destruct Hms as [t [<- _]].
  rewrite tickerMatches_scan in Hk. eapply scan_shape; eassumption.
Qed.

(** ** The scroll-completion detector *)

Lemma cycles_app (a b : list event) : cycles (a ++ b) = cycles a + cycles b.
Proof. unfold cycles. now rewrite filter_app, length_app. Qed.

Lemma closes_app (a b : list event) : closes (a ++ b) = closes a + closes b.
Proof. unfold closes. now rewrite filter_app, length_app. Qed.

Lemma seen_shift (page : renderer) (cycle : nat) (h h1 : Z) (i : nat) :
  heights page (S cycle) = Some h1 ->
  seen page (S cycle) h1 i = seen page cycle h (S i).
Proof.
  intros H1. destruct i as [|i]; cbn [seen].
  - now replace (cycle + 1) with (S cycle) by lia.
  - f_equal. lia.
Qed.

(** When the loop ends, it has run some [S j] cycles, the last two
    measurements are equal and no two consecutive ones before were. *)
Lemma scrollLoop_Ok dur (n : nat) (page : renderer) (account : jsstring) :
  forall (cycle : nat) (h : Z) (w w' : world) (evs : list event),
    scrollLoop dur n page account cycle h w = (Ok tt, w', evs) ->
    exists j x, cycles evs = S j /\
                seen page cycle h (S j) = Some x /\
                seen page cycle h j = Some x /\
                forall i, i < j -> seen page cycle h (S i) <> seen page cycle h i.
Proof.
  induction n as [|n IH]; intros cycle h w w' evs R.
  - discriminate.
  - cbn [scrollLoop] in R. unfold bind, call, evaluateHeight, log in R.
    cbn in R. destruct (autoScroll_ok page cycle); [|discriminate].
    destruct (heights page (S cycle)) as [h1|] eqn:H1; cbn in R; [|discriminate].
    destruct (h1 =? h)%Z eqn:E.
    + inversion R; subst. exists 0, h. split; [reflexivity|]. split; [|split].
      * cbn [seen]. apply Z.eqb_eq in E. subst.
        now replace (cycle + 1) with (S cycle) by lia.
      * reflexivity.
      * intros i Hi. lia.
    + destruct (scrollLoop dur n page account (S cycle) h1 _) as [[o w1] t1] eqn:SL.
      destruct o as [[]| |]; inversion R; subst.
      apply IH in SL. destruct SL as [j [x [C [E1 [E2 Ne]]]]].
      exists (S j), x. split; [|split; [|split]].
      * change (cycles ([AutoScroll; WaitFor scrollPause; EvalHeight;
                         Log (LogScrolling h1)] ++ t1) = S (S j)).
        rewrite cycles_app, C. reflexivity.
      * rewrite <- (seen_shift page cycle h h1 _ H1). exact E1.
      * rewrite <- (seen_shift page cycle h h1 _ H1). exact E2.
      * intros i Hi. destruct i as [|i].
        -- cbn [seen]. replace (cycle + 1) with (S cycle) by lia.
           rewrite H1. apply Z.eqb_neq in E. congruence.
        -- rewrite <- !(seen_shift page cycle h h1 _ H1). apply Ne. lia.
Qed.

Lemma scrollToEnd_Ok dur (n : nat) (page : renderer) (account : jsstring)
      (w w' : world) (evs : list event) :
  scrollToEnd dur n page account w = (Ok tt, w', evs) ->
  exists j x, cycles evs = S j /\
              heights page (S j) = Some x /\
              heights page j = Some x /\
              forall i, i < j -> heights page (S i) <> heights page i.
Proof.
  unfold scrollToEnd, bind, evaluateHeight, call. cbn.
  destruct (heights page 0) as [h0|] eqn:H0; cbn; [|discriminate].
  destruct (scrollLoop dur n page account 0 h0 _) as [[o w1] t1] eqn:SL.
  intros R. destruct o as [[]| |]; inversion R; subst.
  apply scrollLoop_Ok in SL. destruct SL as [j [x [C [E1 [E2 Ne]]]]].
  assert (S0 : forall i, seen page 0 h0 i = heights page i).
  { intros [|i]; cbn [seen]; [now rewrite H0 | reflexivity]. }
  exists j, x. split; [|split; [|split]].
  - change (cycles ([EvalHeight] ++ t1) = S j). now rewrite cycles_app, C.
  - now rewrite <- S0.
  - now rewrite <- S0.
  - intros i Hi. rewrite <- !S0. now apply Ne.
Qed.

(** C5. The scroll-completion detector on simulated heights.  With the
    measurements 500, 1200, 1200 it returns after exactly two cycles and
    reports the end of the timeline; with a height that is the same from the
    first measurement it returns after exactly one cycle, without an error;
    and when the first N measurements are strictly increasing it never
    returns before N cycles: whenever it returns, after some j + 1 cycles,
    measurements j and j + 1 are equal and none before were. *)
Theorem scroll_detector_cycles :
  (forall dur (n : nat) (page : renderer) (account : jsstring) (w : world),
      heights page 0 = Some 500%Z -> heights page 1 = Some 1200%Z ->
      heights page 2 = Some 1200%Z ->
      autoScroll_ok page 0 = true -> autoScroll_ok page 1 = true -> 2 <= n ->
      exists w',
        scrollToEnd dur n page account w
        = (Ok tt, w',
           [EvalHeight;
            AutoScroll; WaitFor 3000; EvalHeight; Log (LogScrolling 1200);
            AutoScroll; WaitFor 3000; EvalHeight; Log (LogReachedEnd account)])) /\
  (forall dur (n : nat) (page : renderer) (account : jsstring) (w : world)
          (h : Z),
      heights page 0 = Some h -> heights page 1 = Some h ->
      autoScroll_ok page 0 = true -> 1 <= n ->
      exists w',
        scrollToEnd dur n page account w
        = (Ok tt, w',
           [EvalHeight;
            AutoScroll; WaitFor 3000; EvalHeight; Log (LogReachedEnd account)])) /\
  (forall dur (n : nat) (page : renderer) (account : jsstring) (w w' : world)
          (evs : list event) (N : nat),
      (forall i x y, S i < N -> heights page i = Some x ->
                     heights page (S i) = Some y -> (x < y)%Z) ->
      scrollToEnd dur n page account w = (Ok tt, w', evs) ->
      N <= cycles evs /\
      exists j, cycles evs = S j /\
                heights page (S j) = heights page j /\
                forall i, i < j -> heights page (S i) <> heights page i).
Proof.
  split; [|split].
  - intros dur n page account w H0 H1 H2 A0 A1 L.
    destruct n as [|[|n]]; try lia.
    unfold scrollToEnd. cbn [scrollLoop]. run. rewrite H0. run. rewrite A0. run. rewrite H1. run.
    rewrite A1. run. rewrite H2. run.
    eexists. reflexivity.
  - intros dur n page account w h H0 H1 A0 L.
    destruct n as [|n]; try lia.
    unfold scrollToEnd. cbn [scrollLoop]. run. rewrite H0. run. rewrite A0. run. rewrite H1. run.
    rewrite Z.eqb_refl. eexists. reflexivity.
  - intros dur n page account w w' evs N Inc R.
    apply scrollToEnd_Ok in R. destruct R as [j [x [C [E1 [E2 Ne]]]]].
    split.
    + rewrite C. destruct (le_lt_dec N (S j)) as [G|G]; [assumption|].
      specialize (Inc j x x G E2 E1). lia.
    + exists j. split; [assumption|]. split; [congruence | assumption].
Qed.

Lemma scroll_detector_cycles_witness :
  (exists w',
      scrollToEnd (fun _ => 10%Z) 5 (simulatedPage [500; 1200; 1200]%Z)
                  (str "Barchart") (mkWorld 0 0)
      = (Ok tt, w',
         [EvalHeight;
          AutoScroll; WaitFor 3000; EvalHeight; Log (LogScrolling 1200);
          AutoScroll; WaitFor 3000; EvalHeight;
          Log (LogReachedEnd (str "Barchart"))])) /\
  (exists w',
      scrollToEnd (fun _ => 10%Z) 5 (simulatedPage [700; 700]%Z)
                  (str "Barchart") (mkWorld 0 0)
      = (Ok tt, w',
         [EvalHeight;
          AutoScroll; WaitFor 3000; EvalHeight;
          Log (LogReachedEnd (str "Barchart"))])) /\
  3 <= cycles (snd (scrollToEnd (fun _ => 10%Z) 5
                      (simulatedPage [100; 200; 300; 300]%Z)
                      (str "Barchart") (mkWorld 0 0))).
Proof.
  split; [|split].
  - apply (proj1 scroll_detector_cycles); try reflexivity. lia.
  - apply (proj1 (proj2 scroll_detector_cycles) _ _ _ _ _ 700%Z);
      try reflexivity. lia.
  - refine (proj1 (proj2 (proj2 scroll_detector_cycles) (fun _ => 10%Z) 5
                     (simulatedPage [100; 200; 300; 300]%Z) (str "Barchart")
                     (mkWorld 0 0) (mkWorld 100 0) _ 3 _ _)).
    + intros [|[|[|i]]] x y Hi Hx Hy; try lia;
        cbn in Hx, Hy; inversion Hx; inversion Hy; lia.
    + vm_compute. reflexivity.
Defined.

(** ** The harvester and its session *)

Lemma reported_app (a b : list event) :
  reported (a ++ b) = reported a ++ reported b.
Proof. unfold reported. now rewrite filter_app. Qed.

Lemma launched_app (a b : list event) :
  launched (a ++ b) = launched a + launched b.
Proof. unfold launched. now rewrite filter_app, length_app. Qed.

Lemma scroll_events_quiet (evs : list event) :
  Forall scroll_event evs ->
  closes evs = 0 /\ reported evs = [] /\ launched evs = 0.
Proof.
  induction 1 as [|e evs He _ [IHc [IHm IHl]]]; [repeat split|].
  unfold closes, reported, launched in *. cbn [filter].
  destruct e as [| | | | | | | | |[]]; try contradiction; repeat split;
    assumption.
Qed.

Lemma scrollLoop_events dur (n : nat) (page : renderer) (account : jsstring) :
  forall (cycle : nat) (h : Z) (w : world),
    let '(o, w', evs) := scrollLoop dur n page account cycle h w in
    Forall scroll_event evs /\ o <> Throw CloseFailure
    /\ launches w' = launches w.
Proof.
  induction n as [|n IH]; intros cycle h w.
  - cbn. repeat split; [constructor | discriminate].
  - cbn [scrollLoop]. run.
    destruct (autoScroll_ok page cycle);
      [|repeat split; [repeat constructor | discriminate]].
    destruct (heights page (S cycle)) as [h1|];
      [|repeat split; [repeat constructor | discriminate]].
    destruct (h1 =? h)%Z;
      [repeat split; [repeat constructor | discriminate]|].
    specialize (IH (S cycle) h1
                  (mkWorld (clock w + dur AutoScroll + dur (WaitFor scrollPause)
                            + dur EvalHeight) (launches w))).
    cbn [clock launches] in IH.
    destruct (scrollLoop dur n page account (S cycle) h1 _) as [[o w1] t1].
    destruct IH as [F [T L]].
    assert (F' : Forall scroll_event
                   ([AutoScroll] ++ [WaitFor scrollPause] ++ ([EvalHeight] ++ [])
                      ++ [Log (LogScrolling h1)] ++ t1)).
    { repeat (apply Forall_app; split); try assumption; repeat constructor. }
    destruct o; (split; [exact F' | split; [congruence | exact L]]).
Qed.

Lemma scrollToEnd_events dur (n : nat) (page : renderer) (account : jsstring)
      (w : world) :
  let '(o, w', evs) := scrollToEnd dur n page account w in
  Forall scroll_event evs /\ o <> Throw CloseFailure
  /\ launches w' = launches w.
Proof.
  unfold scrollToEnd. run.
  destruct (heights page 0) as [h0|];
    [|repeat split; [repeat constructor | discriminate]].
  pose proof (scrollLoop_events dur n page account 0 h0
                (mkWorld (clock w + dur EvalHeight) (launches w))) as SL.
  cbn [clock launches] in SL.
  destruct (scrollLoop dur n page account 0 h0 _) as [[o w1] t1].
  destruct SL as [F [T L]].
  assert (F' : Forall scroll_event (([EvalHeight] ++ []) ++ t1)).
  { apply Forall_app; split; [repeat constructor | assumption]. }
  destruct o; (split; [exact F' | split; [congruence | exact L]]).
Qed.

Lemma scrapeTwitter_cases dur pp (n : nat) (account : jsstring) (w : world) :
  let '(o, w', evs) := scrapeTwitter dur pp n account w in
  closes evs = closed o /\ reported evs = [] /\ launched evs = 1
  /\ launches w' = S (launches w)
  /\ forall res, o = Ok res -> res = extractTickers (tweetsOf (pp (launches w))).
Proof.
  unfold scrapeTwitter, tweetsOf. run.
  set (browser := pp (launches w)).
  destruct (launch_ok browser); [|early_exit].
  destruct (newPage_ok browser); [|early_exit].
  destruct (goto_ok browser); [|early_exit].
  pose proof (scrollToEnd_events dur n browser account
                (mkWorld (clock w + dur Launch + dur NewPage + dur (Goto account))
                         (S (launches w)))) as SE.
  destruct (scrollToEnd dur n browser account _) as [[o1 w1] t1].
  destruct SE as [F [T L]]. cbn [launches] in L.
  apply scroll_events_quiet in F. destruct F as [Fc [Fm Fl]].
  assert (Q : forall a b,
             closes (a ++ t1 ++ b) = closes a + closes b
             /\ reported (a ++ t1 ++ b) = reported a ++ reported b
             /\ launched (a ++ t1 ++ b) = launched a + launched b).
  { intros a b.
    rewrite !closes_app, !reported_app, !launched_app, Fc, Fm, Fl.
    repeat split. }
  destruct o1 as [[]|e|].
  - destruct (selector_ok browser).
    + destruct (articles browser) as [tweets|].
      * destruct (close_ok browser); cbn [clock launches].
        -- destruct (Q [Launch; NewPage; Goto account; Log (LogStartScroll account)]
                       [WaitForSelector; Content; Close]) as [Qc [Qm Ql]].
           repeat split; try assumption.
           intros res E. now inversion E.
        -- destruct (Q [Launch; NewPage; Goto account; Log (LogStartScroll account)]
                       [WaitForSelector; Content; Close]) as [Qc [Qm Ql]].
           repeat split; try assumption. intros; discriminate.
      * cbn [clock launches].
        destruct (Q [Launch; NewPage; Goto account; Log (LogStartScroll account)]
                    [WaitForSelector; Content]) as [Qc [Qm Ql]].
        repeat split; try assumption. intros; discriminate.
    + cbn [clock launches].
      destruct (Q [Launch; NewPage; Goto account; Log (LogStartScroll account)]
                  [WaitForSelector]) as [Qc [Qm Ql]].
      repeat split; try assumption. intros; discriminate.
  - destruct (Q [Launch; NewPage; Goto account; Log (LogStartScroll account)] [])
      as [Qc [Qm Ql]].
    rewrite app_nil_r in Qc, Qm, Ql.
    repeat split; try assumption; [|intros; discriminate].
    refine (eq_trans Qc _). destruct e; try reflexivity. congruence.
  - destruct (Q [Launch; NewPage; Goto account; Log (LogStartScroll account)] [])
      as [Qc [Qm Ql]].
    rewrite app_nil_r in Qc, Qm, Ql.
    repeat split; try assumption. intros; discriminate.
Qed.

(** C1 (as amended).  A harvest calls [browser.close] at most once: exactly
    once when it returns its counts, or when [close] itself is the call that
    throws, and not at all when an earlier call throws or the scroll loop
    does not end.  Nothing closes the session of a harvest that fails. *)
Theorem harvest_closes_only_on_return :
  forall dur pp (n : nat) (account : jsstring) (w : world),
    let r := scrapeTwitter dur pp n account w in
    let o := fst (fst r) in
    let evs := snd r in
    closes evs = closed o /\
    closes evs <= 1 /\
    (forall res, o = Ok res -> closes evs = 1) /\
    (forall e, o = Throw e -> e <> CloseFailure -> closes evs = 0) /\
    (o = OutOfFuel -> closes evs = 0).
Proof.
  intros dur pp n account w.
  pose proof (scrapeTwitter_cases dur pp n account w) as H.
  destruct (scrapeTwitter dur pp n account w) as [[o w'] evs].
  destruct H as [C _]. cbn [fst snd]. rewrite C.
  split; [reflexivity|]. split; [|split; [|split]].
  - destruct o as [?|[]|]; cbn; lia.
  - intros res ->. reflexivity.
  - intros e -> Ne. destruct e; try reflexivity. congruence.
  - intros ->. reflexivity.
Qed.

Lemma harvest_closes_only_on_return_witness :
  closes (snd (scrapeTwitter oneSecond (steadyBrowsers 0) 3 (str "Barchart")
                             (mkWorld 0 0))) = 1 /\
  closes (snd (scrapeTwitter oneSecond (fun _ => unreachable) 3 (str "Barchart")
                             (mkWorld 0 0))) = 0.
Proof.
  split.
  - apply (proj1 (proj2 (proj2 (harvest_closes_only_on_return
                                  oneSecond (steadyBrowsers 0) 3
                                  (str "Barchart") (mkWorld 0 0))))
                 [(str "$AAPL", 1%Z)]).
    vm_compute. reflexivity.
  - apply (proj1 (proj2 (proj2 (proj2 (harvest_closes_only_on_return
                                  oneSecond (fun _ => unreachable) 3
                                  (str "Barchart") (mkWorld 0 0)))))
                 NavigationFailure).
    + vm_compute. reflexivity.
    + discriminate.
Defined.

(** C1, as stated, fails: when navigation throws, the browser has been
    launched and [close] is never called. *)
Lemma harvest_leaks_when_navigation_throws :
  scrapeTwitter (fun _ => 0%Z) (fun _ => unreachable) 5 (str "Barchart")
                (mkWorld 0 0)
  = (Throw NavigationFailure, mkWorld 0 1,
     [Launch; NewPage; Goto (str "Barchart")]) /\
  closes [Launch; NewPage; Goto (str "Barchart")] = 0 /\
  ~ (forall dur pp n account w,
        closes (snd (scrapeTwitter dur pp n account w)) = 1).
Proof.
  split; [vm_compute; reflexivity|]. split; [reflexivity|].
  intros H.
  specialize (H (fun _ => 0%Z) (fun _ => unreachable) 5 (str "Barchart")
                (mkWorld 0 0)).
  vm_compute in H. discriminate.
Qed.

(** ** The run *)

Lemma bind_assoc {A B C} (m : M A) (f : A -> M B) (g : B -> M C) (w : world) :
  bind (bind m f) g w = bind m (fun a => bind (f a) g) w.
Proof.
  unfold bind. destruct (m w) as [[[a| |] w1] t1]; try reflexivity.
  destruct (f a w1) as [[[b| |] w2] t2]; try reflexivity.
  destruct (g b w2) as [[o w3] t3]. now rewrite app_assoc.
Qed.

Lemma bind_ext {A B} (m : M A) (f g : A -> M B) (w : world) :
  (forall a w', f a w' = g a w') -> bind m f w = bind m g w.
Proof.
  intros E. unfold bind. destruct (m w) as [[[a| |] w1] t1]; try reflexivity.
  now rewrite E.
Qed.

Lemma forAccounts_app dur pp (n : nat) (l1 l2 : list jsstring) :
  forall (all : jsobject) (w : world),
    forAccounts dur pp n (l1 ++ l2) all w
    = bind (forAccounts dur pp n l1 all) (forAccounts dur pp n l2) w.
Proof.
  induction l1 as [|a l1 IH]; intros all w.
  - cbn [app forAccounts]. unfold bind, ret.
    destruct (forAccounts dur pp n l2 all w) as [[o w1] t1]. reflexivity.
  - cbn [app forAccounts]. rewrite bind_assoc. apply bind_ext. intros _ w1.
    rewrite bind_assoc. apply bind_ext. intros res w2. apply IH.
Qed.

(** What the loop over the accounts emits and leaves behind. *)
Lemma forAccounts_cases dur pp (n : nat) (l : list jsstring) :
  forall (all : jsobject) (w : world),
    let '(o, w', evs) := forAccounts dur pp n l all w in
    reported evs = [] /\
    forall tally, o = Ok tally ->
      tally = mergeAll (harvests pp (launches w) (length l)) all
      /\ launches w' = launches w + length l
      /\ launched evs = length l /\ closes evs = length l.
Proof.
  induction l as [|a l IH]; intros all w.
  - cbn. split; [reflexivity|]. intros t E. inversion E. repeat split. lia.
  - cbn [forAccounts]. unfold bind at 1. unfold log at 1.
    unfold bind at 1.
    pose proof (scrapeTwitter_cases dur pp n a w) as ST.
    destruct (scrapeTwitter dur pp n a w) as [[o1 w1] t1].
    destruct ST as [Sc [Sm [Sl [Sw Sr]]]].
    destruct o1 as [res| |].
    + specialize (IH (mergeCounts all res) w1).
      destruct (forAccounts dur pp n l (mergeCounts all res) w1)
        as [[o2 w2] t2].
      destruct IH as [Im It].
      split.
      * rewrite !reported_app, Sm, Im. reflexivity.
      * intros t E. destruct (It t E) as [Et [Ew [El Ec]]].
        rewrite (Sr res eq_refl) in Et.
        rewrite !launched_app, !closes_app, Sl, Sc, El, Ec, Ew, Sw, Et, Sw.
        cbn [length]. repeat split; try (cbn; lia).
    + split; [now rewrite reported_app, Sm|]. intros; discriminate.
    + split; [now rewrite reported_app, Sm|]. intros; discriminate.
Qed.

Lemma printCounts_run (ks : list jsstring) (all : jsobject) (em : Z) (w : world) :
  printCounts ks all em w
  = (Ok tt, w, map (fun ticker => Log (LogMention ticker (or0 (get all ticker)) em)) ks).
Proof.
  induction ks as [|k ks IH]; [reflexivity|].
  cbn [printCounts map]. unfold bind, log. now rewrite IH.
Qed.

(** A run is its harvests, then the report when they all returned. *)
Lemma scrapeAndPrint_run dur pp (l : list jsstring) (n : nat) (startTime : Z)
      (w : world) :
  scrapeAndPrint dur pp l n startTime w
  = match forAccounts dur pp n l [] w with
    | (Ok tally, w1, t1) =>
        (Ok tt, w1,
         t1 ++ reportLines tally (elapsed (clock w1) startTime)
            ++ [Log LogAllProcessed])
    | (Throw e, w1, t1) => (Throw e, w1, t1)
    | (OutOfFuel, w1, t1) => (OutOfFuel, w1, t1)
    end.
Proof.
  unfold scrapeAndPrint. unfold bind at 1.
  destruct (forAccounts dur pp n l [] w) as [[[tally|e|] w1] t1];
    try reflexivity.
  unfold bind, newDate, log. rewrite printCounts_run. reflexivity.
Qed.

(** C8. When the harvest of a source throws, after the sources before it were
    harvested, the run throws the same failure at that point: its events are
    those of the earlier harvests and of the failing one and nothing more, so
    no later source is harvested (no further browser is launched) and no
    report line is printed.  In general a run that throws has printed nothing
    of its report. *)
Theorem run_aborts_on_first_failure :
  (forall dur pp (n : nat) (startTime : Z) (before after : list jsstring)
          (account : jsstring) (w w1 w2 : world) (tally : jsobject)
          (t1 t2 : list event) (e : error),
      forAccounts dur pp n before [] w = (Ok tally, w1, t1) ->
      scrapeTwitter dur pp n account w1 = (Throw e, w2, t2) ->
      let evs := t1 ++ [Log (LogScraping account)] ++ t2 in
      scrapeAndPrint dur pp (before ++ account :: after) n startTime w
      = (Throw e, w2, evs) /\
      reported evs = [] /\
      launched evs = length before + 1) /\
  (forall dur pp (n : nat) (startTime : Z) (l : list jsstring) (w : world)
          (e : error),
      fst (fst (scrapeAndPrint dur pp l n startTime w)) = Throw e ->
      reported (snd (scrapeAndPrint dur pp l n startTime w)) = []).
Proof.
  split.
  - intros dur pp n startTime before after account w w1 w2 tally t1 t2 e
           HB HT evs.
    assert (R : scrapeAndPrint dur pp (before ++ account :: after) n startTime w
                = (Throw e, w2, evs)).
    { rewrite scrapeAndPrint_run, forAccounts_app. unfold bind at 1.
      rewrite HB. cbn [forAccounts]. unfold bind at 1. unfold log at 1.
      unfold bind at 1. rewrite HT. reflexivity. }
    split; [exact R|].
    pose proof (forAccounts_cases dur pp n before [] w) as FB. rewrite HB in FB.
    destruct FB as [Bm Bt]. destruct (Bt tally eq_refl) as [_ [_ [Bl _]]].
    pose proof (scrapeTwitter_cases dur pp n account w1) as ST.
    rewrite HT in ST. destruct ST as [_ [Sm [Sl _]]].
    subst evs. rewrite !reported_app, !launched_app, Bm, Sm, Bl, Sl.
    split; reflexivity.
  - intros dur pp n startTime l w e. rewrite scrapeAndPrint_run.
    pose proof (forAccounts_cases dur pp n l [] w) as FA.
    destruct (forAccounts dur pp n l [] w) as [[[tally|e0|] w1] t1];
      cbn [fst snd]; intros E; try discriminate.
    destruct FA as [Fm _]. assumption.
Qed.

Lemma run_aborts_on_first_failure_witness :
  scrapeAndPrint oneSecond secondUnreachable
                 ([str "Barchart"] ++ str "RoyLMattox" :: [str "yuriymatso"])
                 3 0 (mkWorld 0 0)
  = (Throw NavigationFailure, mkWorld 15000 2,
     fst abortedRun ++ [Log (LogScraping (str "RoyLMattox"))] ++ snd abortedRun)
  /\
  reported (snd (scrapeAndPrint oneSecond secondUnreachable
                   [str "Barchart"; str "RoyLMattox"; str "yuriymatso"]
                   3 0 (mkWorld 0 0))) = [].
Proof.
  split.
  - apply (proj1 run_aborts_on_first_failure oneSecond secondUnreachable 3 0%Z
                 [str "Barchart"] [str "yuriymatso"] (str "RoyLMattox")
                 (mkWorld 0 0) (mkWorld 12000 1) (mkWorld 15000 2)
                 [(str "$AAPL", 1%Z)] (fst abortedRun) (snd abortedRun)
                 NavigationFailure);
      vm_compute; reflexivity.
  - apply (proj2 run_aborts_on_first_failure oneSecond secondUnreachable 3 0%Z
                 [str "Barchart"; str "RoyLMattox"; str "yuriymatso"]
                 (mkWorld 0 0) NavigationFailure).
    vm_compute. reflexivity.
Defined.

(** ** Merging the counts *)

Lemma set_wf (o : jsobject) (k : jsstring) (v : Z) : wf o -> wf (set o k v).
Proof.
  unfold wf. intros H. rewrite keys_set.
  destruct (get o k) eqn:G; [assumption|].
  apply get_None_keys in G.
  apply NoDup_app; [assumption | repeat constructor; intros [] |].
  intros x Hx [<-|[]]. contradiction.
Qed.

Lemma countTickers_wf (ms : list jsstring) (o : jsobject) :
  wf o -> wf (fold_left countTicker ms o).
Proof.
  revert o. induction ms as [|m ms IH]; intros o H; [assumption|].
  cbn [fold_left]. apply IH. now apply set_wf.
Qed.

Lemma extractTickers_wf (tweets : list jsstring) : wf (extractTickers tweets).
Proof. rewrite extractTickers_spec. apply countTickers_wf. constructor. Qed.

Lemma extractTickers_positive (tweets : list jsstring) :
  positive (extractTickers tweets).
Proof. intros k v H. now apply extractTickers_keys in H. Qed.

Lemma positive_or0 (o : jsobject) (k : jsstring) :
  positive o -> (0 <= or0 (get o k))%Z.
Proof.
  intros P. destruct (get o k) as [v|] eqn:G; cbn; [|lia].
  apply get_In in G. apply P in G. lia.
Qed.

Lemma merge_fold_get (results : jsobject) (ks : list jsstring) :
  NoDup ks ->
  forall (all : jsobject) (k : jsstring),
    get (fold_left
           (fun all ticker =>
              set all ticker (or0 (get all ticker) + or0 (get results ticker))%Z)
           ks all) k
    = if in_dec key_eq_dec k ks
      then Some (or0 (get all k) + or0 (get results k))%Z
      else get all k.
Proof.
  induction 1 as [|m ks Hm ND IH]; intros all k; [reflexivity|].
  cbn [fold_left]. rewrite IH.
  destruct (in_dec key_eq_dec k ks) as [I|I];
    destruct (in_dec key_eq_dec k (m :: ks)) as [J|J].
  - assert (m <> k) by (intros ->; contradiction).
    now rewrite get_set_other.
  - exfalso. apply J. now right.
  - destruct J as [->|J]; [|contradiction]. now rewrite get_set_same.
  - assert (m <> k) by (intros ->; apply J; now left).
    now rewrite get_set_other.
Qed.

Lemma mergeCounts_get (all results : jsobject) (k : jsstring) :
  wf results ->
  get (mergeCounts all results) k = addCount (get all k) (get results k).
Proof.
  intros W. unfold mergeCounts. rewrite merge_fold_get by exact W.
  destruct (in_dec key_eq_dec k (keys results)) as [I|I].
  - destruct (get results k) eqn:G; [reflexivity|].
    apply get_None_keys in G. contradiction.
  - apply get_None_keys in I. now rewrite I.
Qed.

Lemma mergeCounts_wf (all results : jsobject) :
  wf all -> wf (mergeCounts all results).
Proof.
  unfold mergeCounts. generalize (keys results). intros ks. revert all.
  induction ks as [|m ks IH]; intros all W; [assumption|].
  cbn [fold_left]. apply IH. now apply set_wf.
Qed.

Lemma mergeAll_get (rs : list jsobject) :
  Forall wf rs ->
  forall (all : jsobject) (k : jsstring),
    get (mergeAll rs all) k
    = fold_left addCount (map (fun r => get r k) rs) (get all k).
Proof.
  induction 1 as [|r rs W _ IH]; intros all k; [reflexivity|].
  cbn [mergeAll fold_left map]. fold (mergeAll rs (mergeCounts all r)).
  now rewrite IH, mergeCounts_get.
Qed.

Lemma addCount_comm (a r1 r2 : option Z) :
  addCount (addCount a r1) r2 = addCount (addCount a r2) r1.
Proof. destruct a, r1, r2; cbn; f_equal; lia. Qed.

Lemma fold_addCount_perm (l l' : list (option Z)) :
  Permutation l l' ->
  forall a, fold_left addCount l a = fold_left addCount l' a.
Proof.
  induction 1 as [|x l l' _ IH|x y l|l l' l'' _ IH1 _ IH2]; intros a; cbn.
  - reflexivity.
  - apply IH.
  - now rewrite addCount_comm.
  - now rewrite IH1.
Qed.

Lemma fold_addCount_sum (l : list (option Z)) (a : option Z) :
  or0 (fold_left addCount l a) = (or0 a + sumZ (map or0 l))%Z.
Proof.
  revert a. induction l as [|x l IH]; intros a.
  - cbn. lia.
  - cbn [fold_left map]. rewrite IH. unfold sumZ. cbn [fold_right].
    destruct x, a; cbn [addCount or0]; lia.
Qed.

Lemma fold_addCount_None (l : list (option Z)) (a : option Z) :
  fold_left addCount l a = None <-> a = None /\ Forall (fun x => x = None) l.
Proof.
  revert a. induction l as [|x l IH]; intros a; cbn.
  - split; [auto | tauto].
  - rewrite IH. split.
    + intros [A F]. destruct x; [discriminate|]. cbn in A. auto.
    + intros [A F]. inversion F; subst. auto.
Qed.

Lemma keys_get (o : jsobject) (k : jsstring) :
  In k (keys o) <-> get o k <> None.
Proof.
  pose proof (get_None_keys o k) as H.
  destruct (in_dec key_eq_dec k (keys o)) as [I|I]; split; intros; tauto.
Qed.

Lemma permutations_of_three {T : Type} (a b c : T) (l : list T) :
  Permutation [a; b; c] l ->
  In l [[a; b; c]; [a; c; b]; [b; a; c]; [c; a; b]; [b; c; a]; [c; b; a]].
Proof.
  intros P.
  destruct (Permutation_vs_cons_inv (Permutation_sym P)) as [l1 [l2 ->]].
  apply Permutation_cons_app_inv in P.
  pose proof (Permutation_length P) as Len. rewrite length_app in Len.
  apply Permutation_length_2_inv in P.
  destruct l1 as [|x [|y [|z l1]]]; cbn in *;
    destruct l2 as [|u [|v [|t l2]]]; cbn in *; try lia;
    destruct P as [P|P]; inversion P; subst; tauto.
Qed.

(** ** The tally within a run *)

Lemma mergeCounts_positive (all results : jsobject) :
  positive all -> positive results -> positive (mergeCounts all results).
Proof.
  intros Pa Pr. unfold mergeCounts.
  assert (K : forall t, In t (keys results) -> (1 <= or0 (get results t))%Z).
  { intros t Ht. destruct (get results t) as [v|] eqn:G.
    - apply get_In in G. apply Pr in G. exact G.
    - apply get_None_keys in G. contradiction. }
  revert all Pa K. generalize (keys results). intros ks.
  induction ks as [|m ks IH]; intros all Pa K; [assumption|].
  cbn [fold_left]. apply IH.
  - intros k v H. apply In_set in H.
    destruct H as [[-> ->]|H]; [|now apply (Pa k v)].
    pose proof (positive_or0 all m Pa). specialize (K m (or_introl eq_refl)). lia.
  - intros t Ht. apply K. now right.
Qed.

Lemma mergeAll_positive (rs : list jsobject) :
  Forall positive rs ->
  forall all, positive all -> positive (mergeAll rs all).
Proof.
  induction 1 as [|r rs P _ IH]; intros all Pa; [assumption|].
  cbn [mergeAll fold_left]. apply IH. now apply mergeCounts_positive.
Qed.

Lemma mergeCounts_grows (all results : jsobject) (k : jsstring) :
  wf results -> positive results ->
  (or0 (get all k) <= or0 (get (mergeCounts all results) k))%Z.
Proof.
  intros W P. rewrite mergeCounts_get by assumption.
  pose proof (positive_or0 results k P) as H.
  destruct (get results k); cbn in *; lia.
Qed.

Lemma mergeAll_grows (rs : list jsobject) (k : jsstring) :
  Forall wf rs -> Forall positive rs ->
  forall all, (or0 (get all k) <= or0 (get (mergeAll rs all) k))%Z.
Proof.
  induction 1 as [|r rs W _ IH]; intros P all; [cbn; lia|].
  inversion P; subst. cbn [mergeAll fold_left].
  etransitivity; [apply (mergeCounts_grows all r k); assumption|].
  now apply IH.
Qed.

Lemma harvests_wf pp (k len : nat) : Forall wf (harvests pp k len).
Proof.
  unfold harvests. apply Forall_map, Forall_forall. intros i _.
  apply extractTickers_wf.
Qed.

Lemma harvests_positive pp (k len : nat) : Forall positive (harvests pp k len).
Proof.
  unfold harvests. apply Forall_map, Forall_forall. intros i _.
  apply extractTickers_positive.
Qed.

(** C7. The tally of a run starts from the empty object whatever ran before:
    what a run reports is the merge, into the empty object, of the counts of
    its own harvests.  After any number of the run's sources the tally holds
    only counts that are at least 1 (so none is negative), and the count of
    every symbol at that point is at most its count at the end of the run:
    the counts never decrease from one merge to the next. *)
Theorem tally_fresh_and_monotone :
  (forall dur pp (l : list jsstring) (n : nat) (startTime : Z)
          (w w1 : world) (evs : list event),
      scrapeAndPrint dur pp l n startTime w = (Ok tt, w1, evs) ->
      reported evs
      = reportLines (mergeAll (harvests pp (launches w) (length l)) [])
                    (elapsed (clock w1) startTime)
          ++ [Log LogAllProcessed]) /\
  (forall dur pp (n : nat) (before after : list jsstring)
          (w w' : world) (tally : jsobject) (evs : list event),
      forAccounts dur pp n (before ++ after) [] w = (Ok tally, w', evs) ->
      exists mid w1 e1,
        forAccounts dur pp n before [] w = (Ok mid, w1, e1) /\
        mid = mergeAll (harvests pp (launches w) (length before)) [] /\
        (forall k v, In (k, v) mid -> (1 <= v)%Z) /\
        (forall k, (0 <= or0 (get mid k) <= or0 (get tally k))%Z)) /\
  (forall dur pp (n : nat) (w : world),
      forAccounts dur pp n [] [] w = (Ok [], w, [])).
Proof.
  split; [|split].
  - intros dur pp l n startTime w w1 evs R.
    rewrite scrapeAndPrint_run in R.
    pose proof (forAccounts_cases dur pp n l [] w) as FA.
    destruct (forAccounts dur pp n l [] w) as [[[tally|e|] w2] t2];
      try discriminate.
    destruct FA as [Fm Ft]. destruct (Ft tally eq_refl) as [-> _].
    inversion R; subst.
    rewrite !reported_app, Fm. cbn [app]. f_equal.
    unfold reportLines, reported. apply forallb_filter_id.
    apply forallb_forall. intros e He. apply in_map_iff in He.
    destruct He as [k [<- _]]. reflexivity.
  - intros dur pp n before after w w' tally evs R.
    rewrite forAccounts_app in R. unfold bind in R.
    pose proof (forAccounts_cases dur pp n before [] w) as FB.
    destruct (forAccounts dur pp n before [] w) as [[[mid|e|] w1] e1];
      try discriminate.
    destruct FB as [_ Fb]. destruct (Fb mid eq_refl) as [Em _].
    pose proof (forAccounts_cases dur pp n after mid w1) as FA.
    destruct (forAccounts dur pp n after mid w1) as [[o2 w2] e2].
    inversion R; subst o2 w2 evs. destruct FA as [_ Fa].
    destruct (Fa tally eq_refl) as [Et _].
    assert (Pm : positive mid).
    { rewrite Em. apply mergeAll_positive; [apply harvests_positive|].
      intros k v []. }
    exists mid, w1, e1. split; [reflexivity|]. split; [exact Em|].
    split; [exact Pm|]. intros k. split; [now apply positive_or0|].
    rewrite Et. apply mergeAll_grows;
      [apply harvests_wf | apply harvests_positive].
  - reflexivity.
Qed.

Lemma tally_fresh_and_monotone_witness :
  reported (snd (scrapeAndPrint oneSecond (steadyBrowsers 0)
                   [str "Barchart"; str "RoyLMattox"] 3 0 (mkWorld 0 0)))
  = reportLines (mergeAll (harvests (steadyBrowsers 0) 0 2) []) 0
      ++ [Log LogAllProcessed].
Proof.
  apply (proj1 tally_fresh_and_monotone oneSecond (steadyBrowsers 0)
               [str "Barchart"; str "RoyLMattox"] 3 0%Z
               (mkWorld 0 0) (mkWorld 24000 2)).
  vm_compute. reflexivity.
Defined.

(** ** The runs of [main] *)

Lemma runAt_trigger (t : Z) (m : M unit) : trigger (runAt t m) = t.
Proof. unfold runAt. destruct (m (mkWorld t 0)) as [[o w] evs]. reflexivity. Qed.

Lemma In_reported (e : event) (evs : list event) :
  In e (reported evs) <->
  In e evs /\ match e with
              | Log (LogMention _ _ _) | Log LogAllProcessed => True
              | _ => False
              end.
Proof.
  unfold reported. rewrite filter_In.
  destruct e as [| | | | | | | | |[]]; intuition discriminate.
Qed.

Lemma scrapeAndPrint_reports_since dur pp (l : list jsstring) (n : nat)
      (startTime : Z) :
  reports_since startTime (scrapeAndPrint dur pp l n startTime).
Proof.
  intros w ticker c em. rewrite scrapeAndPrint_run.
  pose proof (forAccounts_cases dur pp n l [] w) as FA.
  destruct (forAccounts dur pp n l [] w) as [[[tally|e|] w1] t1];
    destruct FA as [Fm _]; intros H.
  - assert (R : In (Log (LogMention ticker c em))
                   (reported (t1 ++ reportLines tally (elapsed (clock w1) startTime)
                                 ++ [Log LogAllProcessed]))).
    { apply In_reported. split; [assumption | exact I]. }
    rewrite !reported_app, Fm in R. cbn [app] in R.
    apply in_app_or in R. destruct R as [R|R].
    + apply In_reported in R. destruct R as [R _].
      unfold reportLines in R. apply in_map_iff in R.
      destruct R as [k [E _]]. now inversion E.
    + cbn in R. destruct R as [R|[]]. discriminate.
  - assert (R : In (Log (LogMention ticker c em)) (reported t1)).
    { apply In_reported. split; [assumption | exact I]. }
    rewrite Fm in R. destruct R.
  - assert (R : In (Log (LogMention ticker c em)) (reported t1)).
    { apply In_reported. split; [assumption | exact I]. }
    rewrite Fm in R. destruct R.
Qed.

Lemma timerCallback_reports_since dur browsers (n k : nat) (startTime : Z) :
  reports_since startTime (timerCallback dur browsers n k startTime).
Proof.
  intros w ticker c em. unfold timerCallback, bind, log.
  pose proof (scrapeAndPrint_reports_since dur (browsers k) accounts n
                startTime w ticker c em) as SP.
  destruct (scrapeAndPrint dur (browsers k) accounts n startTime w)
    as [[o w1] t1].
  destruct o; (intros [H|H]; [discriminate | now apply SP]).
Qed.

Lemma runAt_reports_since (startTime t : Z) (m : M unit)
      (ticker : jsstring) (c em : Z) :
  reports_since startTime m ->
  In (Log (LogMention ticker c em)) (output (runAt t m)) ->
  em = elapsed (finished (runAt t m)) startTime.
Proof.
  intros R. specialize (R (mkWorld t 0) ticker c em). unfold runAt.
  destruct (m (mkWorld t 0)) as [[o w1] t1]. exact R.
Qed.

Lemma timerRuns_reports_since dur browsers (fuel : nat) (policy : bool)
      (armed startTime : Z) (n : nat) :
  forall (k : nat) (r : run),
    In r (timerRuns dur browsers fuel policy armed startTime k n) ->
    forall ticker c em,
      In (Log (LogMention ticker c em)) (output r) ->
      em = elapsed (finished r) startTime.
Proof.
  induction n as [|n IH]; intros k r H; [destruct H|].
  cbn [timerRuns] in H. destruct H as [<-|H].
  - intros ticker c em. apply runAt_reports_since.
    apply timerCallback_reports_since.
  - destruct (policy && rejected _); [destruct H|]. eapply IH; eassumption.
Qed.

Lemma timerRuns_trigger dur browsers (fuel : nat) (policy : bool)
      (armed startTime : Z) (n : nat) :
  forall (k i : nat) (r : run),
    nth_error (timerRuns dur browsers fuel policy armed startTime k n) i = Some r ->
    trigger r = (armed + Z.of_nat (k + i) * interval)%Z.
Proof.
  induction n as [|n IH]; intros k i r H; [destruct i; discriminate|].
  cbn [timerRuns] in H. destruct i as [|i]; cbn [nth_error] in H.
  - inversion H. rewrite runAt_trigger. f_equal. f_equal. lia.
  - destruct (policy && rejected _); [destruct i; discriminate|].
    apply IH in H. rewrite H. f_equal. f_equal. lia.
Qed.

Lemma main_first dur browsers (fuel : nat) (policy : bool) (t0 : Z) (n : nat) :
  exists r0 rest,
    main dur browsers fuel policy t0 n = r0 :: rest /\
    r0 = runAt t0 (scrapeAndPrint dur (browsers 0) accounts fuel t0) /\
    (rest = [] \/
     rest = timerRuns dur browsers fuel policy (finished r0) t0 1 n).
Proof.
  unfold main. cbv zeta.
  destruct (result (runAt t0 (scrapeAndPrint dur (browsers 0) accounts fuel t0)));
    eexists; eexists; (split; [reflexivity|]); split; auto.
Qed.

(** C2, as stated, fails for the runs after the first: in a process where
    every call takes a second and every pause three, the second run is
    triggered at 1020000 ms and reports at 1140000 ms, 2 minutes after its own
    start, and it prints 19 minutes. *)
Lemma later_runs_do_not_report_their_own_minutes :
  map (fun r => (trigger r, finished r, reported (output r)))
      (main oneSecond steadyBrowsers 3 false 0 1)
  = [(0, 120000,
      [Log (LogMention (str "$AAPL") 10 2); Log LogAllProcessed]);
     (1020000, 1140000,
      [Log (LogMention (str "$AAPL") 10 19); Log LogAllProcessed])]%Z /\
  elapsed 1140000 1020000 = 2%Z /\
  ~ (forall dur browsers fuel policy t0 n r ticker c em,
        In r (main dur browsers fuel policy t0 n) ->
        In (Log (LogMention ticker c em)) (output r) ->
        em = elapsed (finished r) (trigger r)).
Proof.
  split; [vm_compute; reflexivity|]. split; [reflexivity|].
  intros H.
  specialize (H oneSecond steadyBrowsers 3 false 0%Z 1 secondRun
                (str "$AAPL") 10%Z 19%Z).
  assert (E : 19%Z = elapsed (finished secondRun) (trigger secondRun)).
  { apply H.
    - vm_compute. right. left. reflexivity.
    - vm_compute. do 131 right. left. reflexivity. }
  vm_compute in E. discriminate.
Qed.

(** C3 (as amended).  The second run is triggered one interval after the
    first run has finished its report, since the timer is armed only then.
    Every later run is triggered one interval after the run before it was
    triggered: the timer fires at a fixed rate and does not wait for the run
    it started. *)
Theorem timer_fires_at_fixed_rate :
  forall dur browsers (fuel : nat) (policy : bool) (t0 : Z) (n i : nat)
         (r r' : run),
    nth_error (main dur browsers fuel policy t0 n) i = Some r ->
    nth_error (main dur browsers fuel policy t0 n) (S i) = Some r' ->
    trigger r' = ((if Nat.eqb i 0 then finished r else trigger r) + interval)%Z.
Proof.
  intros dur browsers fuel policy t0 n i r r' H H'.
  destruct (main_first dur browsers fuel policy t0 n) as [r0 [rest [E [E0 ER]]]].
  rewrite E in H, H'. cbn [nth_error] in H'.
  destruct ER as [->| ->]; [destruct i; discriminate|].
  apply timerRuns_trigger in H'. destruct i as [|i]; cbn [nth_error] in H.
  - inversion H; subst r. cbn [Nat.eqb]. rewrite H'.
    replace (Z.of_nat (1 + 0)) with 1%Z by reflexivity. lia.
  - apply timerRuns_trigger in H. cbn [Nat.eqb]. rewrite H, H'.
    replace (Z.of_nat (1 + S i)) with (Z.of_nat (1 + i) + 1)%Z by lia. lia.
Qed.

Lemma timer_fires_at_fixed_rate_witness :
  trigger (nth 1 firstRuns secondRun)
  = (finished (nth 0 firstRuns secondRun) + interval)%Z /\
  trigger (nth 2 firstRuns secondRun)
  = (trigger (nth 1 firstRuns secondRun) + interval)%Z.
Proof.
  split.
  - apply (timer_fires_at_fixed_rate oneSecond steadyBrowsers 3 false 0 2 0);
      vm_compute; reflexivity.
  - apply (timer_fires_at_fixed_rate oneSecond steadyBrowsers 3 false 0 2 1);
      vm_compute; reflexivity.
Defined.

(** C3, as stated, fails from the second run on: the third run starts
    900000 ms after the second one started, which is 780000 ms after the
    second one finished. *)
Lemma timer_does_not_wait_for_the_run :
  map (fun r => (trigger r, finished r)) firstRuns
  = [(0, 120000); (1020000, 1140000); (1920000, 2040000)]%Z /\
  (1920000 <> 1140000 + interval)%Z /\
  ~ (forall dur browsers fuel policy t0 n i r r',
        nth_error (main dur browsers fuel policy t0 n) i = Some r ->
        nth_error (main dur browsers fuel policy t0 n) (S i) = Some r' ->
        trigger r' = (finished r + interval)%Z).
Proof.
  split; [vm_compute; reflexivity|]. split; [vm_compute; discriminate|].
  intros H.
  specialize (H oneSecond steadyBrowsers 3 false 0%Z 2 1
                (nth 1 firstRuns secondRun) (nth 2 firstRuns secondRun)).
  assert (E : trigger (nth 2 firstRuns secondRun)
              = (finished (nth 1 firstRuns secondRun) + interval)%Z).
  { apply H; vm_compute; reflexivity. }
  vm_compute in E. discriminate.
Qed.

(** * Further properties of the code *)

(** ** The in-page scrolling *)

Lemma autoScrollTimer_spec (n : nat) (scrollHeight : nat -> Z) :
  forall (fired : nat) (total : Z) (k : nat) (t : Z),
    autoScrollTimer n scrollHeight fired total = Some (k, t) ->
    fired < k /\ k <= fired + n /\
    t = (total + distance * Z.of_nat (k - fired))%Z /\
    (scrollHeight (k - 1)%nat <= t)%Z /\
    forall i, fired <= i -> i < k - 1 ->
              (total + distance * Z.of_nat (S i - fired) < scrollHeight i)%Z.
Proof.
  induction n as [|n IH]; intros fired total k t H; [discriminate|].
  cbn [autoScrollTimer] in H. cbv zeta in H.
  destruct (scrollHeight fired <=? total + distance)%Z eqn:E.
  - inversion H; subst. apply Z.leb_le in E.
    replace (S fired - 1) with fired by lia.
    replace (S fired - fired) with 1 by lia.
    repeat split; try lia; try assumption.
  - apply Z.leb_gt in E. apply IH in H.
    destruct H as [L [U [T [S0 B]]]].
    split; [lia|]. split; [lia|]. split; [|split; [assumption|]].
    + rewrite T. replace (k - fired) with (S (k - S fired)) by lia. lia.
    + intros i Li Ui. destruct (Nat.eq_dec i fired) as [->|N].
      * replace (S fired - fired) with 1 by lia. lia.
      * specialize (B i ltac:(lia) Ui).
        replace (S i - fired) with (S (S i - S fired)) by lia. lia.
Qed.

Lemma autoScrollTimer_stops (n : nat) (scrollHeight : nat -> Z) :
  forall (fired : nat) (total : Z) (j : nat),
    j < n ->
    (scrollHeight (fired + j)%nat <= total + distance * Z.of_nat (S j))%Z ->
    exists k t, autoScrollTimer n scrollHeight fired total = Some (k, t)
                /\ k <= fired + S j.
Proof.
  induction n as [|n IH]; intros fired total j L H; [lia|].
  cbn [autoScrollTimer]. cbv zeta.
  destruct (scrollHeight fired <=? total + distance)%Z eqn:E.
  - eexists; eexists. split; [reflexivity | lia].
  - apply Z.leb_gt in E. destruct j as [|j].
    + exfalso. replace (fired + 0) with fired in H by lia.
      change (Z.of_nat 1) with 1%Z in H. lia.
    + destruct (IH (S fired) (total + distance)%Z j ltac:(lia)) as [k [t [R U]]].
      * replace (S fired + j) with (fired + S j) by lia. lia.
      * exists k, t. split; [assumption | lia].
Qed.

Lemma autoScroll_inv (n : nat) (scrollHeight : nat -> Z) (k : nat) (t : Z) :
  autoScroll n scrollHeight = Some (k, t) ->
  1 <= k /\ k <= n /\ t = (100 * Z.of_nat k)%Z /\
  (scrollHeight (k - 1)%nat <= t)%Z /\
  forall i, i < k - 1 -> (100 * Z.of_nat (S i) < scrollHeight i)%Z.
Proof.
  intros H. apply autoScrollTimer_spec in H.
  destruct H as [L [U [T [S0 B]]]]. unfold distance in *.
  replace (k - 0) with k in T by lia.
  repeat split; try lia; try assumption.
  intros i Hi. specialize (B i ltac:(lia) Hi).
  replace (S i - 0) with (S i) in B by lia. lia.
Qed.

Lemma autoScrollTimer_more (n : nat) (scrollHeight : nat -> Z) :
  forall (m fired : nat) (total : Z) (r : nat * Z),
    autoScrollTimer n scrollHeight fired total = Some r -> n <= m ->
    autoScrollTimer m scrollHeight fired total = Some r.
Proof.
  induction n as [|n IH]; intros m fired total r H L; [discriminate|].
  destruct m as [|m]; [lia|]. cbn [autoScrollTimer] in *. cbv zeta in *.
  destruct (scrollHeight fired <=? total + distance)%Z; [assumption|].
  apply IH; [assumption | lia].
Qed.

(** X1. One pass of [autoScroll] always scrolls at least once, by 100 px a
    firing; when it ends after k firings it has scrolled 100 k px, the page
    was at most that high at the last firing and was higher than what had
    been scrolled at every firing before; following the timer for longer
    does not change this result. *)
Theorem autoScroll_ends_when_distance_reaches_height :
  forall (n : nat) (scrollHeight : nat -> Z) (k : nat) (t : Z),
    autoScroll n scrollHeight = Some (k, t) ->
    1 <= k /\ k <= n /\ t = (100 * Z.of_nat k)%Z /\
    (scrollHeight (k - 1)%nat <= t)%Z /\
    (forall i, i < k - 1 -> (100 * Z.of_nat (S i) < scrollHeight i)%Z) /\
    (forall m, n <= m -> autoScroll m scrollHeight = Some (k, t)).
Proof.
  intros n scrollHeight k t H.
  destruct (autoScroll_inv _ _ _ _ H) as [L [U [T [S0 B]]]].
  repeat split; try assumption.
  intros m Hm. unfold autoScroll in *.
  eapply autoScrollTimer_more; eassumption.
Qed.

Lemma autoScroll_ends_when_distance_reaches_height_witness :
  1 <= 3 /\ 3 <= 10 /\ 300%Z = (100 * Z.of_nat 3)%Z /\
  ((fun _ : nat => 250%Z) (3 - 1)%nat <= 300)%Z /\
  (forall i, i < 3 - 1 -> (100 * Z.of_nat (S i) < (fun _ : nat => 250%Z) i)%Z) /\
  (forall m, 10 <= m -> autoScroll m (fun _ => 250%Z) = Some (3, 300%Z)).
Proof.
  apply (autoScroll_ends_when_distance_reaches_height 10 (fun _ => 250%Z)).
  reflexivity.
Defined.

(** X2. On a page of constant height H, one pass of [autoScroll] takes
    exactly ceil(H / 100) firings, and one firing when H <= 100 (an empty
    page is still scrolled once), provided the timer is followed that long;
    it overshoots the height by less than 100 px. *)
Theorem autoScroll_on_constant_height :
  forall (n : nat) (H : Z),
    let k := Z.to_nat (Z.max 1 ((H + 99) / 100)) in
    k <= n ->
    autoScroll n (fun _ => H) = Some (k, (100 * Z.of_nat k)%Z) /\
    (0 < H -> H <= 100 * Z.of_nat k < H + 100)%Z.
Proof.
  intros n H k L.
  assert (K1 : 1 <= k) by (unfold k; lia).
  assert (Kz : Z.of_nat k = Z.max 1 ((H + 99) / 100)) by (unfold k; lia).
  assert (Up : (H <= 100 * Z.of_nat k)%Z).
  { rewrite Kz. pose proof (Z.div_mod (H + 99) 100 ltac:(lia)) as D.
    pose proof (Z.mod_pos_bound (H + 99) 100 ltac:(lia)). lia. }
  destruct (autoScrollTimer_stops n (fun _ => H) 0 0%Z (k - 1) ltac:(lia))
    as [k' [t [R U]]].
  { unfold distance. replace (S (k - 1)) with k by lia. lia. }
  fold (autoScroll n (fun _ => H)) in R.
  pose proof (autoScroll_inv _ _ _ _ R) as [L1 [_ [T [_ B]]]].
  assert (k' = k).
  { destruct (Nat.eq_dec k' k) as [E|N]; [assumption|]. exfalso.
    assert (Lt : k' < k) by lia.
    assert (S1 : (H <= 100 * Z.of_nat k')%Z).
    { pose proof (autoScroll_inv _ _ _ _ R) as [_ [_ [T' [S' _]]]].
      cbv beta in S'. lia. }
    pose proof (Z.div_mod (H + 99) 100 ltac:(lia)) as D.
    pose proof (Z.mod_pos_bound (H + 99) 100 ltac:(lia)). lia. }
  subst k'. split; [now rewrite R, T|].
  intros Hp. split; [assumption|].
  rewrite Kz. pose proof (Z.div_mod (H + 99) 100 ltac:(lia)) as D.
  pose proof (Z.mod_pos_bound (H + 99) 100 ltac:(lia)). lia.
Qed.

Lemma autoScroll_on_constant_height_witness :
  autoScroll 40 (fun _ => 1234%Z) = Some (13, 1300%Z) /\
  autoScroll 1 (fun _ => 0%Z) = Some (1, 100%Z).
Proof.
  split.
  - apply (autoScroll_on_constant_height 40 1234). cbn. lia.
  - apply (autoScroll_on_constant_height 1 0). cbn. lia.
Defined.

(** X3. [autoScroll] has no bound of its own: on a page that, at every
    firing, is higher than what has been scrolled so far (it grows by at
    least 100 px per firing), the timer is never cleared, however long it is
    followed; on a page that never exceeds B px it ends within
    max(1, ceil(B / 100)) firings. *)
Theorem autoScroll_termination :
  (forall (n : nat) (scrollHeight : nat -> Z),
      (forall i, (100 * Z.of_nat (S i) < scrollHeight i)%Z) ->
      autoScroll n scrollHeight = None) /\
  (forall (n : nat) (scrollHeight : nat -> Z) (B : Z),
      (forall i, (scrollHeight i <= B)%Z) ->
      Z.to_nat (Z.max 1 ((B + 99) / 100)) <= n ->
      exists k t, autoScroll n scrollHeight = Some (k, t)
                  /\ k <= Z.to_nat (Z.max 1 ((B + 99) / 100))).
Proof.
  split.
  - intros n scrollHeight G.
    destruct (autoScroll n scrollHeight) as [[k t]|] eqn:R; [|reflexivity].
    apply autoScroll_inv in R.
    destruct R as [L [_ [T [S0 _]]]]. specialize (G (k - 1)).
    replace (S (k - 1)) with k in G by lia. lia.
  - intros n scrollHeight B Hb L.
    set (k := Z.to_nat (Z.max 1 ((B + 99) / 100))) in *.
    destruct (autoScrollTimer_stops n scrollHeight 0 0%Z (k - 1) ltac:(lia))
      as [k' [t [R U]]].
    + unfold distance. replace (S (k - 1)) with k by lia.
      specialize (Hb (0 + (k - 1))).
      assert (Kz : Z.of_nat k = Z.max 1 ((B + 99) / 100)) by (unfold k; lia).
      pose proof (Z.div_mod (B + 99) 100 ltac:(lia)) as D.
      pose proof (Z.mod_pos_bound (B + 99) 100 ltac:(lia)). lia.
    + exists k', t. split; [exact R | lia].
Qed.

Lemma autoScroll_termination_witness :
  autoScroll 1000 (fun i => 100 * Z.of_nat (S i) + 1)%Z = None /\
  exists k t, autoScroll 20 (fun i => Z.min 950 (300 * Z.of_nat (S i)))%Z
              = Some (k, t)
              /\ k <= Z.to_nat (Z.max 1 ((950 + 99) / 100)).
Proof.
  split.
  - apply (proj1 autoScroll_termination). intros i. lia.
  - apply (proj2 autoScroll_termination 20 _ 950%Z).
    + intros i. lia.
    + cbn. lia.
Defined.

(** ** When the scroll loop ends *)

Lemma scrollLoop_returns dur (page : renderer) (account : jsstring) (j : nat) :
  forall (n cycle : nat) (h : Z) (w : world),
    j < n ->
    (forall i, i <= j -> autoScroll_ok page (cycle + i) = true) ->
    (forall i, i <= j -> seen page cycle h (S i) <> None) ->
    (forall i, i < j -> seen page cycle h (S i) <> seen page cycle h i) ->
    seen page cycle h (S j) = seen page cycle h j ->
    exists w' evs,
      scrollLoop dur n page account cycle h w = (Ok tt, w', evs)
      /\ cycles evs = S j
      /\ In (Log (LogReachedEnd account)) evs.
Proof.
  induction j as [|j IH]; intros n cycle h w L A D N E.
  - destruct n as [|n]; [lia|]. cbn [scrollLoop]. run.
    specialize (A 0 (le_n 0)). replace (cycle + 0) with cycle in A by lia.
    rewrite A. cbn [seen] in E.
    replace (cycle + 1) with (S cycle) in E by lia. rewrite E.
    rewrite Z.eqb_refl. eexists; eexists. split; [reflexivity|].
    split; [reflexivity|]. cbn. tauto.
  - destruct n as [|n]; [lia|]. cbn [scrollLoop]. run.
    pose proof (A 0 (Nat.le_0_l _)) as A0.
    replace (cycle + 0) with cycle in A0 by lia. rewrite A0.
    pose proof (D 0 (Nat.le_0_l _)) as D0. pose proof (N 0 ltac:(lia)) as N0.
    cbn [seen] in D0, N0. replace (cycle + 1) with (S cycle) in D0, N0 by lia.
    destruct (heights page (S cycle)) as [h1|] eqn:H1; [|congruence].
    destruct (h1 =? h)%Z eqn:Eq; [apply Z.eqb_eq in Eq; congruence|].
    destruct (IH n (S cycle) h1
                (mkWorld (clock w + dur AutoScroll + dur (WaitFor scrollPause)
                          + dur EvalHeight) (launches w)))
      as [w' [evs [R [C I]]]].
    + lia.
    + intros i Hi. replace (S cycle + i) with (cycle + S i) by lia.
      apply A. lia.
    + intros i Hi. rewrite (seen_shift page cycle h h1 _ H1). apply D. lia.
    + intros i Hi. rewrite !(seen_shift page cycle h h1 _ H1). apply N. lia.
    + rewrite !(seen_shift page cycle h h1 _ H1). exact E.
    + rewrite R. eexists; eexists. split; [reflexivity|]. split.
      * change (cycles ([AutoScroll; WaitFor scrollPause; EvalHeight;
                         Log (LogScrolling h1)] ++ evs) = S (S j)).
        rewrite cycles_app, C. reflexivity.
      * apply in_or_app. right. apply in_or_app. right.
        apply in_or_app. right. apply in_or_app. right. exact I.
Qed.

(** X4. The scroll loop ends at the first measurement that equals the one
    before it, and not earlier: when the scrolls succeed, the heights are
    measured, measurements j and j + 1 are the first two consecutive ones
    that are equal and the loop is followed for more than j cycles, the
    detector returns after exactly j + 1 cycles and logs that the end was
    reached.  Heights that differ keep the loop going whether the page grew
    or shrank. *)
Theorem scroll_ends_at_first_repeated_height :
  forall dur (n : nat) (page : renderer) (account : jsstring) (w : world)
         (j : nat),
    j < n ->
    (forall i, i <= j -> autoScroll_ok page i = true) ->
    (forall i, i <= S j -> heights page i <> None) ->
    (forall i, i < j -> heights page (S i) <> heights page i) ->
    heights page (S j) = heights page j ->
    exists w' evs,
      scrollToEnd dur n page account w = (Ok tt, w', evs)
      /\ cycles evs = S j
      /\ In (Log (LogReachedEnd account)) evs.
Proof.
  intros dur n page account w j L A D N E.
  unfold scrollToEnd. run.
  destruct (heights page 0) as [h0|] eqn:H0;
    [|exfalso; apply (D 0); [lia | assumption]].
  assert (S0 : forall i, seen page 0 h0 i = heights page i).
  { intros [|i]; cbn [seen]; [now rewrite H0 | reflexivity]. }
  destruct (scrollLoop_returns dur page account j n 0 h0
              (mkWorld (clock w + dur EvalHeight) (launches w)))
    as [w' [evs [R [C I]]]]; try assumption.
  - intros i Hi. rewrite S0. apply D. lia.
  - intros i Hi. rewrite !S0. now apply N.
  - now rewrite !S0.
  - rewrite R. eexists; eexists. split; [reflexivity|]. split.
    + change (cycles ([EvalHeight] ++ evs) = S j). now rewrite cycles_app, C.
    + apply in_or_app. right. exact I.
Qed.

Lemma scroll_ends_at_first_repeated_height_witness :
  exists w' evs,
    scrollToEnd oneSecond 9 (simulatedPage [900; 400; 1600; 1600; 5000]%Z)
                (str "Barchart") (mkWorld 0 0)
    = (Ok tt, w', evs)
    /\ cycles evs = 3
    /\ In (Log (LogReachedEnd (str "Barchart"))) evs.
Proof.
  apply (scroll_ends_at_first_repeated_height oneSecond 9
           (simulatedPage [900; 400; 1600; 1600; 5000]%Z) (str "Barchart")
           (mkWorld 0 0) 2).
  - lia.
  - reflexivity.
  - intros [|[|[|[|i]]]] Hi; cbn; try discriminate. lia.
  - intros [|[|i]] Hi; cbn; try discriminate. lia.
  - reflexivity.
Defined.

Lemma scrollLoop_keeps_going dur (page : renderer) (account : jsstring) :
  (forall i, autoScroll_ok page i = true) ->
  (forall i, exists x y, heights page i = Some x /\ heights page (S i) = Some y
                         /\ x <> y) ->
  forall (n cycle : nat) (h : Z) (w : world),
    heights page cycle = Some h ->
    exists w' evs,
      scrollLoop dur n page account cycle h w = (OutOfFuel, w', evs)
      /\ cycles evs = n /\ closes evs = 0 /\ launches w' = launches w.
Proof.
  intros A D. induction n as [|n IH]; intros cycle h w Hc.
  - eexists; eexists. split; [reflexivity|]. repeat split.
  - cbn [scrollLoop]. run. rewrite A.
    destruct (D cycle) as [x [y [Hx [Hy Ne]]]].
    rewrite Hy. rewrite Hc in Hx. inversion Hx; subst x.
    destruct (y =? h)%Z eqn:Eq; [apply Z.eqb_eq in Eq; congruence|].
    destruct (IH (S cycle) y
                (mkWorld (clock w + dur AutoScroll + dur (WaitFor scrollPause)
                          + dur EvalHeight) (launches w)) Hy)
      as [w' [evs [R [C [Cl Lw]]]]].
    rewrite R. eexists; eexists. split; [reflexivity|].
    change (cycles ([AutoScroll; WaitFor scrollPause; EvalHeight;
                     Log (LogScrolling y)] ++ evs) = S n
            /\ closes ([AutoScroll; WaitFor scrollPause; EvalHeight;
                        Log (LogScrolling y)] ++ evs) = 0
            /\ launches w' = launches w).
    rewrite cycles_app, closes_app, C, Cl. repeat split. exact Lw.
Qed.

(** ** The calls of a harvest, their order and their time *)

Lemma spent_app dur (a b : list event) :
  spent dur (a ++ b) = (spent dur a + spent dur b)%Z.
Proof.
  induction a as [|e a IH]; [reflexivity|].
  cbn [app spent fold_right] in *. fold (spent dur (a ++ b)). fold (spent dur a).
  rewrite IH. lia.
Qed.

Lemma spent_nonneg dur (evs : list event) :
  (forall e, 0 <= dur e)%Z -> (0 <= spent dur evs)%Z.
Proof.
  intros P. induction evs as [|e evs IH]; [cbn; lia|].
  cbn [spent fold_right]. fold (spent dur evs). specialize (P e).
  destruct e; lia.
Qed.

Lemma spent_pause dur (evs : list event) (ms : Z) :
  (forall e, 0 <= dur e)%Z -> In (WaitFor ms) evs ->
  (dur (WaitFor ms) <= spent dur evs)%Z.
Proof.
  intros P. induction evs as [|e evs IH]; [intros []|].
  cbn [spent fold_right]. fold (spent dur evs).
  pose proof (spent_nonneg dur evs P) as Nn. intros [E|H].
  - rewrite E. lia.
  - specialize (IH H). specialize (P e). destruct e; lia.
Qed.

Lemma scrollLoop_clock dur (n : nat) (page : renderer) (account : jsstring) :
  forall (cycle : nat) (h : Z) (w : world),
    let r := scrollLoop dur n page account cycle h w in
    clock (snd (fst r)) = (clock w + spent dur (snd r))%Z /\
    (forall u, fst (fst r) = Ok u -> In (WaitFor scrollPause) (snd r)).
Proof.
  induction n as [|n IH]; intros cycle h w; cbv zeta.
  - cbn. split; [lia | discriminate].
  - cbn [scrollLoop]. run.
    destruct (autoScroll_ok page cycle); [|cbn; split; [lia | discriminate]].
    destruct (heights page (S cycle)) as [h1|];
      [|cbn; split; [lia | discriminate]].
    destruct (h1 =? h)%Z; [cbn; split; [lia | tauto]|].
    specialize (IH (S cycle) h1
                  (mkWorld (clock w + dur AutoScroll + dur (WaitFor scrollPause)
                            + dur EvalHeight) (launches w))).
    cbv zeta in IH.
    destruct (scrollLoop dur n page account (S cycle) h1 _) as [[o w1] t1].
    cbn [fst snd clock] in IH. destruct IH as [Ck _].
    assert (E : spent dur ([AutoScroll] ++ [WaitFor scrollPause]
                             ++ ([EvalHeight] ++ [])
                             ++ [Log (LogScrolling h1)] ++ t1)
                = (dur AutoScroll + dur (WaitFor scrollPause) + dur EvalHeight
                   + spent dur t1)%Z).
    { cbn [app spent fold_right]. fold (spent dur t1). lia. }
    destruct o; cbn [fst snd]; rewrite E, Ck;
      (split; [lia | try discriminate]).
    intros u _. right. left. reflexivity.
Qed.

Lemma scrollToEnd_clock dur (n : nat) (page : renderer) (account : jsstring)
      (w : world) :
  let r := scrollToEnd dur n page account w in
  clock (snd (fst r)) = (clock w + spent dur (snd r))%Z /\
  (forall u, fst (fst r) = Ok u -> In (WaitFor scrollPause) (snd r)).
Proof.
  unfold scrollToEnd. run. cbv zeta.
  destruct (heights page 0) as [h0|]; [|cbn; split; [lia | discriminate]].
  pose proof (scrollLoop_clock dur n page account 0 h0
                (mkWorld (clock w + dur EvalHeight) (launches w))) as SL.
  cbv zeta in SL.
  destruct (scrollLoop dur n page account 0 h0 _) as [[o w1] t1].
  cbn [fst snd clock] in SL. destruct SL as [Ck P].
  assert (E : spent dur (([EvalHeight] ++ []) ++ t1)
              = (dur EvalHeight + spent dur t1)%Z).
  { cbn [app spent fold_right]. fold (spent dur t1). lia. }
  destruct o as [a| |]; cbn [fst snd] in *; rewrite E, Ck;
    (split; [lia | try discriminate]).
  intros u _. right. now apply (P a).
Qed.

Lemma scrapeTwitter_shape dur pp (n : nat) (account : jsstring) (w : world) :
  let r := scrapeTwitter dur pp n account w in
  clock (snd (fst r)) = (clock w + spent dur (snd r))%Z /\
  exists scrolling rest,
    Forall scroll_event scrolling /\
    harvestCalls account scrolling = snd r ++ rest /\
    (forall res, fst (fst r) = Ok res ->
                 rest = [] /\ In (WaitFor scrollPause) scrolling).
Proof.
  unfold scrapeTwitter, harvestCalls. run. cbv zeta.
  set (browser := pp (launches w)).
  destruct (launch_ok browser).
  2:{ cbn [fst snd clock]. split; [cbn; lia|]. exists [].
      eexists. split; [constructor|]. split; [reflexivity | discriminate]. }
  destruct (newPage_ok browser).
  2:{ cbn [fst snd clock]. split; [cbn; lia|]. exists [].
      eexists. split; [constructor|]. split; [reflexivity | discriminate]. }
  destruct (goto_ok browser).
  2:{ cbn [fst snd clock]. split; [cbn; lia|]. exists [].
      eexists. split; [constructor|]. split; [reflexivity | discriminate]. }
  pose proof (scrollToEnd_events dur n browser account
                (mkWorld (clock w + dur Launch + dur NewPage + dur (Goto account))
                         (S (launches w)))) as SE.
  pose proof (scrollToEnd_clock dur n browser account
                (mkWorld (clock w + dur Launch + dur NewPage + dur (Goto account))
                         (S (launches w)))) as SC.
  cbv zeta in SC.
  destruct (scrollToEnd dur n browser account _) as [[o1 w1] t1].
  destruct SE as [F _]. cbn [fst snd clock] in SC. destruct SC as [Ck P].
  destruct o1 as [[]|e|].
  - destruct (selector_ok browser).
    + destruct (articles browser) as [tweets|].
      * destruct (close_ok browser); cbn [fst snd clock].
        -- split; [rewrite !spent_app; unfold spent in *; cbn [fold_right]; lia|].
           exists t1, []. split; [assumption|]. split.
           ++ cbn [app]. rewrite ?app_nil_r. reflexivity.
           ++ intros res _. split; [reflexivity | now apply (P tt)].
        -- split; [rewrite !spent_app; unfold spent in *; cbn [fold_right]; lia|].
           exists t1, []. split; [assumption|]. split.
           ++ cbn [app]. rewrite ?app_nil_r. reflexivity.
           ++ discriminate.
      * cbn [fst snd clock].
        split; [rewrite !spent_app; unfold spent in *; cbn [fold_right]; lia|].
        exists t1, [Close]. split; [assumption|]. split.
        -- cbn [app]. rewrite <- ?app_assoc. reflexivity.
        -- discriminate.
    + cbn [fst snd clock].
      split; [rewrite !spent_app; unfold spent in *; cbn [fold_right]; lia|].
      exists t1, [Content; Close]. split; [assumption|]. split.
      * cbn [app]. rewrite <- ?app_assoc. reflexivity.
      * discriminate.
  - cbn [fst snd clock].
    split; [rewrite !spent_app; unfold spent in *; cbn [fold_right]; lia|].
    exists t1, [WaitForSelector; Content; Close]. split; [assumption|]. split.
    + cbn [app]. rewrite <- ?app_assoc. reflexivity.
    + discriminate.
  - cbn [fst snd clock].
    split; [rewrite !spent_app; unfold spent in *; cbn [fold_right]; lia|].
    exists t1, [WaitForSelector; Content; Close]. split; [assumption|]. split.
    + cbn [app]. rewrite <- ?app_assoc. reflexivity.
    + discriminate.
Qed.

Lemma sessions_app (a b : list event) :
  forall open,
    sessions open (a ++ b)
    = match sessions open a with
      | Some o => sessions o b
      | None => None
      end.
Proof.
  induction a as [|e a IH]; intros open; [reflexivity|].
  cbn [app sessions].
  destruct e; try apply IH;
    match goal with |- context [?x =? ?y] => destruct (x =? y) end;
    try apply IH; reflexivity.
Qed.

Lemma sessions_le (evs : list event) :
  forall open o, sessions open evs = Some o -> open <= 1 -> o <= 1.
Proof.
  induction evs as [|e evs IH]; intros open o H L.
  - inversion H. lia.
  - cbn [sessions] in H.
    destruct e; try (eapply IH; eassumption);
      match type of H with context [?x =? ?y] => destruct (x =? y) end;
      try discriminate; eapply IH; try eassumption; lia.
Qed.

Lemma sessions_scroll (evs : list event) (open : nat) :
  Forall scroll_event evs -> sessions open evs = Some open.
Proof.
  induction 1 as [|e evs He _ IH]; [reflexivity|].
  destruct e as [| | | | | | | | |[]]; try contradiction; exact IH.
Qed.

Lemma navigated_app (a b : list event) :
  navigated (a ++ b) = navigated a ++ navigated b.
Proof. unfold navigated. apply flat_map_app. Qed.

Lemma navigated_scroll (evs : list event) :
  Forall scroll_event evs -> navigated evs = [].
Proof.
  induction 1 as [|e evs He _ IH]; [reflexivity|].
  destruct e as [| | | | | | | | |[]]; try contradiction; exact IH.
Qed.

Lemma sessions_harvestCalls (account : jsstring) (scrolling : list event) :
  Forall scroll_event scrolling ->
  sessions 0 (harvestCalls account scrolling) = Some 0.
Proof.
  intros F. unfold harvestCalls. cbn [app sessions Nat.eqb].
  rewrite sessions_app, (sessions_scroll scrolling 1 F). reflexivity.
Qed.

Lemma navigated_harvestCalls (account : jsstring) (scrolling : list event) :
  Forall scroll_event scrolling ->
  navigated (harvestCalls account scrolling) = [account].
Proof.
  intros F. unfold harvestCalls.
  rewrite !navigated_app, (navigated_scroll scrolling F). reflexivity.
Qed.

(** What the events of one harvest say about its browser, its navigation and
    its pause. *)
Lemma scrapeTwitter_facts dur pp (n : nat) (account : jsstring) (w : world) :
  let r := scrapeTwitter dur pp n account w in
  clock (snd (fst r)) = (clock w + spent dur (snd r))%Z /\
  (exists o, sessions 0 (snd r) = Some o /\ o <= 1
             /\ forall res, fst (fst r) = Ok res -> o = 0) /\
  (exists rest, [account] = navigated (snd r) ++ rest
                /\ forall res, fst (fst r) = Ok res -> rest = []) /\
  (forall res, fst (fst r) = Ok res -> In (WaitFor scrollPause) (snd r)).
Proof.
  pose proof (scrapeTwitter_shape dur pp n account w) as H. cbv zeta in *.
  destruct H as [Ck [scrolling [rest [F [E P]]]]].
  split; [exact Ck|].
  pose proof (sessions_harvestCalls account scrolling F) as Sh.
  pose proof (navigated_harvestCalls account scrolling F) as Nh.
  rewrite E in Sh, Nh. rewrite sessions_app in Sh. rewrite navigated_app in Nh.
  split; [|split].
  - destruct (sessions 0 (snd (scrapeTwitter dur pp n account w)))
      as [o|] eqn:So; [|discriminate].
    exists o. split; [reflexivity|]. split.
    + eapply sessions_le; [eassumption | lia].
    + intros res R. destruct (P res R) as [-> _]. now inversion Sh.
  - exists (navigated rest). split; [now symmetry|].
    intros res R. destruct (P res R) as [-> _]. reflexivity.
  - intros res R. destruct (P res R) as [-> I]. rewrite app_nil_r in E.
    rewrite <- E. unfold harvestCalls. apply in_or_app. right.
    apply in_or_app. now left.
Qed.

(** The same for the loop over the accounts. *)
Lemma forAccounts_facts dur pp (n : nat) (l : list jsstring) :
  forall (all : jsobject) (w : world),
    let r := forAccounts dur pp n l all w in
    clock (snd (fst r)) = (clock w + spent dur (snd r))%Z /\
    (exists o, sessions 0 (snd r) = Some o /\ o <= 1
               /\ forall t, fst (fst r) = Ok t -> o = 0) /\
    (exists rest, l = navigated (snd r) ++ rest
                  /\ forall t, fst (fst r) = Ok t -> rest = []) /\
    (forall t, fst (fst r) = Ok t ->
               (forall e, 0 <= dur e)%Z ->
               (forall ms, ms <= dur (WaitFor ms))%Z ->
               (scrollPause * Z.of_nat (length l) <= spent dur (snd r))%Z).
Proof.
  induction l as [|a l IH]; intros all w; cbv zeta.
  - cbn. split; [lia|]. split; [exists 0; auto|]. split; [exists []; auto|].
    intros; lia.
  - cbn [forAccounts]. unfold bind, log.
    pose proof (scrapeTwitter_facts dur pp n a w) as ST. cbv zeta in ST.
    destruct (scrapeTwitter dur pp n a w) as [[o1 w1] t1].
    cbn [fst snd] in ST.
    destruct ST as [Ck [[o [So [Lo Oo]]] [[rest [Nv Nr]] Pw]]].
    destruct o1 as [res| |].
    + specialize (IH (mergeCounts all res) w1). cbv zeta in IH.
      destruct (forAccounts dur pp n l (mergeCounts all res) w1)
        as [[o2 w2] t2].
      cbn [fst snd] in *.
      destruct IH as [Ck2 [[o' [So' [Lo' Oo']]] [[rest' [Nv' Nr']] Pw']]].
      rewrite (Oo res eq_refl) in So. rewrite (Nr res eq_refl) in Nv.
      rewrite app_nil_r in Nv.
      split; [|split; [|split]].
      * rewrite !spent_app, Ck2, Ck. cbn. lia.
      * exists o'. cbn [app sessions]. rewrite sessions_app, So.
        repeat split; assumption.
      * exists rest'. rewrite !navigated_app, <- Nv. cbn [navigated flat_map app].
        split; [now f_equal | assumption].
      * intros t Et Pd Pm. rewrite !spent_app.
        specialize (Pw' t Et Pd Pm).
        pose proof (spent_pause dur t1 scrollPause Pd (Pw res eq_refl)) as Sp.
        specialize (Pm scrollPause).
        cbn [length]. change (spent dur [Log (LogScraping a)]) with 0%Z.
        unfold scrollPause in *. lia.
    + cbn [fst snd]. split; [|split; [|split]].
      * rewrite !spent_app, Ck. cbn. lia.
      * exists o. cbn [app sessions].
        split; [assumption|]. split; [assumption | discriminate].
      * exists (rest ++ l). rewrite navigated_app. cbn [navigated flat_map app].
        fold (navigated t1). rewrite app_assoc, <- Nv.
        split; [reflexivity | discriminate].
      * discriminate.
    + cbn [fst snd]. split; [|split; [|split]].
      * rewrite !spent_app, Ck. cbn. lia.
      * exists o. cbn [app sessions].
        split; [assumption|]. split; [assumption | discriminate].
      * exists (rest ++ l). rewrite navigated_app. cbn [navigated flat_map app].
        fold (navigated t1). rewrite app_assoc, <- Nv.
        split; [reflexivity | discriminate].
      * discriminate.
Qed.

Lemma report_is_silent dur (tally : jsobject) (em : Z) (o : nat) :
  let t := reportLines tally em ++ [Log LogAllProcessed] in
  spent dur t = 0%Z /\ sessions o t = Some o /\ navigated t = [].
Proof.
  cbv zeta. unfold reportLines. induction (keys tally) as [|k ks IH].
  - repeat split.
  - cbn [map app]. destruct IH as [S1 [S2 S3]]. repeat split; assumption.
Qed.

(** What the events of a whole run say. *)
Lemma scrapeAndPrint_facts dur pp (l : list jsstring) (n : nat) (startTime : Z)
      (w : world) :
  let r := scrapeAndPrint dur pp l n startTime w in
  clock (snd (fst r)) = (clock w + spent dur (snd r))%Z /\
  (exists o, sessions 0 (snd r) = Some o /\ o <= 1
             /\ (fst (fst r) = Ok tt -> o = 0)) /\
  (exists rest, l = navigated (snd r) ++ rest
                /\ (fst (fst r) = Ok tt -> rest = [])) /\
  (fst (fst r) = Ok tt ->
   (forall e, 0 <= dur e)%Z -> (forall ms, ms <= dur (WaitFor ms))%Z ->
   (scrollPause * Z.of_nat (length l) <= spent dur (snd r))%Z).
Proof.
  cbv zeta. rewrite scrapeAndPrint_run.
  pose proof (forAccounts_facts dur pp n l [] w) as FA. cbv zeta in FA.
  destruct (forAccounts dur pp n l [] w) as [[[tally|e|] w1] t1];
    cbn [fst snd] in *;
    destruct FA as [Ck [[o [So [Lo Oo]]] [[rest [Nv Nr]] Pw]]].
  - destruct (report_is_silent dur tally (elapsed (clock w1) startTime) 0)
      as [R1 [R2 R3]].
    rewrite (Oo tally eq_refl) in So. rewrite (Nr tally eq_refl) in Nv.
    rewrite spent_app, navigated_app, R1, R3, sessions_app, So, R2.
    split; [lia|]. split; [|split].
    + exists 0. repeat split. lia.
    + exists []. rewrite !app_nil_r in *. split; [exact Nv | reflexivity].
    + intros _ Pd Pm. specialize (Pw tally eq_refl Pd Pm). lia.
  - split; [assumption|]. split; [exists o; repeat split; try assumption; discriminate|].
    split; [exists rest; split; [assumption | discriminate]|]. discriminate.
  - split; [assumption|]. split; [exists o; repeat split; try assumption; discriminate|].
    split; [exists rest; split; [assumption | discriminate]|]. discriminate.
Qed.

(** X6. A harvest makes its calls in one fixed order: launch, new page,
    navigation, the scroll cycles, the wait for an article, the page content,
    close.  Whatever happens, the calls made are an initial part of that
    sequence, the scrolling part holding nothing but scrolls, pauses, height
    measurements and their log lines; a harvest that returns has made all of
    them, ending with the close. *)
Theorem harvest_calls_in_fixed_order :
  forall dur pp (n : nat) (account : jsstring) (w : world),
    exists scrolling rest,
      Forall scroll_event scrolling /\
      harvestCalls account scrolling
      = snd (scrapeTwitter dur pp n account w) ++ rest /\
      (forall res, fst (fst (scrapeTwitter dur pp n account w)) = Ok res ->
                   rest = [] /\
                   last (snd (scrapeTwitter dur pp n account w)) Launch = Close).
Proof.
  intros dur pp n account w.
  destruct (scrapeTwitter_shape dur pp n account w)
    as [_ [scrolling [rest [F [E P]]]]].
  exists scrolling, rest. split; [assumption|]. split; [assumption|].
  intros res R. destruct (P res R) as [-> _]. split; [reflexivity|].
  rewrite app_nil_r in E. rewrite <- E. unfold harvestCalls.
  change [WaitForSelector; Content; Close]
    with ([WaitForSelector; Content] ++ [Close]).
  rewrite !app_assoc. apply (last_last _ Close Launch).
Qed.

Lemma harvest_calls_in_fixed_order_witness :
  exists scrolling rest,
    Forall scroll_event scrolling /\
    harvestCalls (str "Barchart") scrolling
    = snd (scrapeTwitter oneSecond (steadyBrowsers 0) 3 (str "Barchart")
                         (mkWorld 0 0)) ++ rest /\
    (forall res,
        fst (fst (scrapeTwitter oneSecond (steadyBrowsers 0) 3 (str "Barchart")
                                (mkWorld 0 0))) = Ok res ->
        rest = [] /\
        last (snd (scrapeTwitter oneSecond (steadyBrowsers 0) 3 (str "Barchart")
                                 (mkWorld 0 0))) Launch = Close).
Proof.
  exact (harvest_calls_in_fixed_order oneSecond (steadyBrowsers 0) 3
           (str "Barchart") (mkWorld 0 0)).
Defined.

(** X7. Within a run the sources are harvested one after the other with at
    most one browser open at any moment: after every initial part of the
    events of a run, no browser was launched while another was open, none
    was closed that was not open, and at most one is open; when the run
    returns, none is left open. *)
Theorem one_browser_at_a_time :
  forall dur pp (l : list jsstring) (n : nat) (startTime : Z) (w : world),
    (forall p s, snd (scrapeAndPrint dur pp l n startTime w) = p ++ s ->
                 exists o, sessions 0 p = Some o /\ o <= 1) /\
    (fst (fst (scrapeAndPrint dur pp l n startTime w)) = Ok tt ->
     sessions 0 (snd (scrapeAndPrint dur pp l n startTime w)) = Some 0).
Proof.
  intros dur pp l n startTime w.
  destruct (scrapeAndPrint_facts dur pp l n startTime w)
    as [_ [[o [So [Lo Oo]]] _]].
  split.
  - intros p s E. rewrite E, sessions_app in So.
    destruct (sessions 0 p) as [o'|] eqn:Sp; [|discriminate].
    exists o'. split; [reflexivity|]. eapply sessions_le; [eassumption | lia].
  - intros R. now rewrite So, (Oo R).
Qed.

Lemma one_browser_at_a_time_witness :
  (exists o,
      sessions 0 (firstn 17 (snd (scrapeAndPrint oneSecond secondUnreachable
                                    [str "Barchart"; str "RoyLMattox"] 3 0
                                    (mkWorld 0 0)))) = Some o /\ o <= 1) /\
  sessions 0 (snd (scrapeAndPrint oneSecond (steadyBrowsers 0)
                     [str "Barchart"; str "RoyLMattox"] 3 0 (mkWorld 0 0)))
  = Some 0.
Proof.
  split.
  - apply (proj1 (one_browser_at_a_time oneSecond secondUnreachable
                    [str "Barchart"; str "RoyLMattox"] 3 0%Z (mkWorld 0 0))
                 _ (skipn 17 (snd (scrapeAndPrint oneSecond secondUnreachable
                                     [str "Barchart"; str "RoyLMattox"] 3 0
                                     (mkWorld 0 0))))).
    symmetry. apply firstn_skipn.
  - apply (proj2 (one_browser_at_a_time oneSecond (steadyBrowsers 0)
                    [str "Barchart"; str "RoyLMattox"] 3 0%Z (mkWorld 0 0))).
    vm_compute. reflexivity.
Defined.

(** X8. A run navigates to the accounts in the order of the list, each at
    most once: the accounts navigated to are an initial part of the list, and
    the whole list when the run returns. *)
Theorem accounts_visited_in_order :
  forall dur pp (l : list jsstring) (n : nat) (startTime : Z) (w : world),
    exists rest,
      l = navigated (snd (scrapeAndPrint dur pp l n startTime w)) ++ rest /\
      (fst (fst (scrapeAndPrint dur pp l n startTime w)) = Ok tt -> rest = []).
Proof.
  intros dur pp l n startTime w.
  destruct (scrapeAndPrint_facts dur pp l n startTime w)
    as [_ [_ [[rest [Nv Nr]] _]]].
  exists rest. split; assumption.
Qed.

Lemma accounts_visited_in_order_witness :
  navigated (snd (scrapeAndPrint oneSecond (steadyBrowsers 0) accounts 3 0
                                 (mkWorld 0 0))) = accounts.
Proof.
  destruct (accounts_visited_in_order oneSecond (steadyBrowsers 0) accounts 3
              0%Z (mkWorld 0 0)) as [rest [E R]].
  rewrite (R ltac:(vm_compute; reflexivity)) in E.
  rewrite app_nil_r in E. symmetry. exact E.
Defined.

(** X9. The clock at the end of a run is the clock at its start plus the time
    of the calls made, and each harvest that returns has paused for
    [scrollPause] at least once: when no call takes negative time and
    [waitFor(ms)] lasts at least [ms], a run that returns has lasted at least
    3000 ms for every account. *)
Theorem run_lasts_a_pause_per_account :
  forall dur pp (l : list jsstring) (n : nat) (startTime : Z) (w : world),
    let r := scrapeAndPrint dur pp l n startTime w in
    clock (snd (fst r)) = (clock w + spent dur (snd r))%Z /\
    (fst (fst r) = Ok tt ->
     (forall e, 0 <= dur e)%Z -> (forall ms, ms <= dur (WaitFor ms))%Z ->
     (clock w + 3000 * Z.of_nat (length l) <= clock (snd (fst r)))%Z).
Proof.
  intros dur pp l n startTime w r.
  destruct (scrapeAndPrint_facts dur pp l n startTime w) as [Ck [_ [_ Pw]]].
  fold r in Ck, Pw. split; [exact Ck|].
  intros R Pd Pm. specialize (Pw R Pd Pm). unfold scrollPause in Pw. lia.
Qed.

Lemma run_lasts_a_pause_per_account_witness :
  (0 + 3000 * Z.of_nat (length accounts)
   <= clock (snd (fst (scrapeAndPrint halfSecond (steadyBrowsers 0) accounts 3 0
                                      (mkWorld 0 0)))))%Z.
Proof.
  apply (proj2 (run_lasts_a_pause_per_account halfSecond (steadyBrowsers 0)
                  accounts 3 0%Z (mkWorld 0 0))).
  - vm_compute. reflexivity.
  - intros e. destruct e; cbn; lia.
  - intros ms. cbn. lia.
Defined.

(** ** Where the matches lie in the text *)

Lemma takeWord_split (n : nat) (s : jsstring) :
  s = takeWord n s ++ skipn (length (takeWord n s)) s.
Proof.
  rewrite <- (takeWord_prefix n s) at 1. symmetry. apply firstn_skipn.
Qed.

Lemma scan_weave (s : jsstring) :
  forall skip,
    exists before gaps,
      length gaps = length (scanTickers s skip) /\
      skipn skip s = weave before (combine (scanTickers s skip) gaps).
Proof.
  induction s as [|c t IH]; intros skip.
  - exists [], []. split; [reflexivity|]. now destruct skip.
  - cbn [scanTickers]. destruct skip as [|k]; [|apply IH].
    destruct (Ascii.eqb c sigil) eqn:E.
    + destruct (3 <=? length (takeWord 4 t)) eqn:L.
      * destruct (IH (length (takeWord 4 t))) as [g [gs [Hl Hs]]].
        exists [], (g :: gs). split; [cbn; now rewrite Hl|].
        cbn [skipn combine map concat weave fst snd app].
        unfold weave in Hs. rewrite <- app_assoc, <- Hs.
        cbn [app]. f_equal. apply takeWord_split.
      * destruct (IH 0) as [g [gs [Hl Hs]]].
        exists (c :: g), gs. split; [assumption|].
        cbn [skipn] in *. unfold weave in *. cbn [app]. now rewrite <- Hs.
    + destruct (IH 0) as [g [gs [Hl Hs]]].
      exists (c :: g), gs. split; [assumption|].
      cbn [skipn] in *. unfold weave in *. cbn [app]. now rewrite <- Hs.
Qed.

Lemma scan_length (s : jsstring) :
  forall skip, 4 * length (scanTickers s skip) <= length s - skip.
Proof.
  induction s as [|c t IH]; intros skip; [cbn; lia|].
  cbn [scanTickers]. destruct skip as [|k].
  - destruct (Ascii.eqb c sigil).
    + destruct (3 <=? length (takeWord 4 t)) eqn:L.
      * apply Nat.leb_le in L. specialize (IH (length (takeWord 4 t))).
        pose proof (takeWord_length 4 t). cbn [length]. lia.
      * specialize (IH 0). cbn [length]. lia.
    + specialize (IH 0). cbn [length]. lia.
  - specialize (IH k). cbn [length]. lia.
Qed.

Lemma weave_piece (ms : list jsstring) :
  forall (gaps : list jsstring) (before m : jsstring),
    length gaps = length ms -> In m ms ->
    exists pre post, weave before (combine ms gaps) = pre ++ m ++ post.
Proof.
  unfold weave.
  induction ms as [|x ms IH]; intros gaps before m Hl Hm; [destruct Hm|].
  destruct gaps as [|g gaps]; [discriminate|]. cbn [length] in Hl.
  cbn [combine map concat fst snd]. destruct Hm as [->|Hm].
  - exists before. eexists. rewrite <- !app_assoc. reflexivity.
  - destruct (IH gaps (before ++ x ++ g) m ltac:(lia) Hm) as [pre [post E]].
    exists pre, post. rewrite <- E, <- !app_assoc. reflexivity.
Qed.

(** X10. The matches of a text are pieces of the text itself, one after the
    other without overlap: the text is what precedes the first match, then
    each match followed by the text up to the next one.  So every match
    occurs in the text, a text has at most a quarter as many matches as
    characters, and a text without the sigil has no match. *)
Theorem matches_are_disjoint_pieces_of_the_text :
  forall text : jsstring,
    (exists before gaps,
        length gaps = length (tickerMatches text) /\
        text = weave before (combine (tickerMatches text) gaps)) /\
    (forall m, In m (tickerMatches text) ->
               exists pre post, text = pre ++ m ++ post) /\
    4 * length (tickerMatches text) <= length text /\
    (~ In sigil text -> tickerMatches text = []).
Proof.
  intros text. rewrite tickerMatches_scan.
  destruct (scan_weave text 0) as [before [gaps [Hl Hs]]]. cbn [skipn] in Hs.
  assert (Sub : forall m, In m (scanTickers text 0) ->
                          exists pre post, text = pre ++ m ++ post).
  { intros m Hm.
    destruct (weave_piece (scanTickers text 0) gaps before m Hl Hm)
      as [pre [post E]].
    exists pre, post. now rewrite <- E. }
  split; [exists before, gaps; split; assumption|].
  split; [exact Sub|]. split.
  - pose proof (scan_length text 0). lia.
  - intros N. destruct (scanTickers text 0) as [|m ms] eqn:S0; [reflexivity|].
    exfalso. destruct (Sub m (or_introl eq_refl)) as [pre [post E]].
    assert (T : is_ticker m).
    { apply (scan_shape text 0). rewrite S0. now left. }
    destruct T as [x [-> _]]. apply N. rewrite E.
    apply in_or_app. right. now left.
Qed.

Lemma matches_are_disjoint_pieces_of_the_text_witness :
  (exists pre post,
      str "sold $TSLA, kept $AAPL5" = pre ++ str "$AAPL" ++ post) /\
  tickerMatches (str "no money at all") = [].
Proof.
  split.
  - apply (proj1 (proj2 (matches_are_disjoint_pieces_of_the_text
                           (str "sold $TSLA, kept $AAPL5")))).
    vm_compute. right. left. reflexivity.
  - apply (proj2 (proj2 (proj2 (matches_are_disjoint_pieces_of_the_text
                                  (str "no money at all"))))).
    vm_compute. intuition discriminate.
Defined.

(** ** The order of the keys and the merge as one extraction *)

Lemma keys_countTicker (o : jsobject) (m : jsstring) :
  keys (countTicker o m) = remember (keys o) m.
Proof.
  unfold countTicker, remember. rewrite keys_set.
  destruct (in_dec key_eq_dec m (keys o)) as [I|I].
  - destruct (get o m) eqn:G; [reflexivity|].
    apply get_None_keys in G. contradiction.
  - apply get_None_keys in I. now rewrite I.
Qed.

Lemma keys_countTickers (ms : list jsstring) (o : jsobject) :
  keys (fold_left countTicker ms o) = firstSeen ms (keys o).
Proof.
  revert o. induction ms as [|m ms IH]; intros o; [reflexivity|].
  cbn [fold_left firstSeen]. rewrite IH, keys_countTicker. reflexivity.
Qed.

Lemma keys_mergeCounts (all results : jsobject) :
  keys (mergeCounts all results) = firstSeen (keys results) (keys all).
Proof.
  unfold mergeCounts, firstSeen. generalize (keys results). intros ks.
  revert all. induction ks as [|k ks IH]; intros all; [reflexivity|].
  cbn [fold_left]. rewrite IH. f_equal.
  unfold remember. rewrite keys_set.
  destruct (in_dec key_eq_dec k (keys all)) as [I|I].
  - destruct (get all k) eqn:G; [reflexivity|].
    apply get_None_keys in G. contradiction.
  - apply get_None_keys in I. now rewrite I.
Qed.

Lemma In_remember (ks : list jsstring) (m x : jsstring) :
  In x (remember ks m) <-> In x ks \/ x = m.
Proof.
  unfold remember. destruct (in_dec key_eq_dec m ks) as [I|I].
  - split; [auto | intros [H| ->]; assumption].
  - rewrite in_app_iff. cbn. intuition congruence.
Qed.

Lemma In_firstSeen (ms : list jsstring) :
  forall ks x, In x (firstSeen ms ks) <-> In x ks \/ In x ms.
Proof.
  induction ms as [|m ms IH]; intros ks x; cbn [firstSeen fold_left].
  - cbn. tauto.
  - fold (firstSeen ms (remember ks m)). rewrite IH, In_remember. cbn.
    intuition congruence.
Qed.

Lemma NoDup_remember (ks : list jsstring) (m : jsstring) :
  NoDup ks -> NoDup (remember ks m).
Proof.
  intros N. unfold remember. destruct (in_dec key_eq_dec m ks); [assumption|].
  apply NoDup_app; [assumption | repeat constructor; intros [] |].
  intros x Hx [<-|[]]. contradiction.
Qed.

Lemma NoDup_firstSeen (ms : list jsstring) :
  forall ks, NoDup ks -> NoDup (firstSeen ms ks).
Proof.
  induction ms as [|m ms IH]; intros ks N; [assumption|].
  cbn [firstSeen fold_left]. apply IH. now apply NoDup_remember.
Qed.

Lemma firstSeen_last (ms ks : list jsstring) (m : jsstring) :
  firstSeen (ms ++ [m]) ks = remember (firstSeen ms ks) m.
Proof. unfold firstSeen. now rewrite fold_left_app. Qed.

Lemma remember_known (ks : list jsstring) (m : jsstring) :
  In m ks -> remember ks m = ks.
Proof.
  intros I. unfold remember. destruct (in_dec key_eq_dec m ks); tauto.
Qed.

(** Writing the distinct matches in their order of first occurrence, or all
    the matches, leaves the same keys. *)
Lemma firstSeen_idem (mb ks : list jsstring) :
  firstSeen (firstSeen mb []) ks = firstSeen mb ks.
Proof.
  induction mb as [|m mb IH] using rev_ind; [reflexivity|].
  rewrite !firstSeen_last. unfold remember at 1.
  destruct (in_dec key_eq_dec m (firstSeen mb [])) as [I|I].
  - rewrite IH. symmetry. apply remember_known.
    apply In_firstSeen. right. apply In_firstSeen in I.
    destruct I as [[]|I]. exact I.
  - rewrite firstSeen_last, IH. reflexivity.
Qed.

Lemma get_countTickers (ms : list jsstring) :
  forall (o : jsobject) (k : jsstring),
    get (fold_left countTicker ms o) k
    = if in_dec key_eq_dec k ms
      then Some (or0 (get o k) + Z.of_nat (count_occ key_eq_dec ms k))%Z
      else get o k.
Proof.
  induction ms as [|m ms IH]; intros o k; [reflexivity|].
  cbn [fold_left]. rewrite IH.
  pose proof (countTicker_get o m k) as CG.
  assert (C : Z.of_nat (count_occ key_eq_dec (m :: ms) k)
              = ((if key_eq_dec m k then 1 else 0)
                 + Z.of_nat (count_occ key_eq_dec ms k))%Z).
  { cbn [count_occ]. destruct (key_eq_dec m k); lia. }
  destruct (in_dec key_eq_dec k ms) as [I|I];
    destruct (in_dec key_eq_dec k (m :: ms)) as [J|J].
  - rewrite CG, C. f_equal. lia.
  - exfalso. apply J. now right.
  - destruct J as [E|J]; [|contradiction]. subst m.
    rewrite C, (proj1 (count_occ_not_In key_eq_dec ms k) I).
    unfold countTicker. rewrite get_set_same.
    destruct (key_eq_dec k k); [|congruence]. f_equal; lia.
  - unfold countTicker. rewrite get_set_other; [reflexivity|].
    intros E. apply J. now left.
Qed.

(** Two objects with the same keys in the same order and the same entries
    are the same object. *)
Lemma object_ext (o1 : jsobject) :
  forall o2, wf o1 -> keys o1 = keys o2 ->
             (forall k, In k (keys o1) -> get o1 k = get o2 k) -> o1 = o2.
Proof.
  induction o1 as [|[k1 v1] o1 IH]; intros [|[k2 v2] o2] W K G;
    try discriminate; [reflexivity|].
  cbn [keys map fst] in K. inversion K; subst k2.
  pose proof (G k1 (or_introl eq_refl)) as G1. cbn [get] in G1.
  destruct (key_eq_dec k1 k1); [|congruence]. inversion G1; subst v2.
  f_equal. inversion W; subst. apply IH; try assumption.
  intros k Hk. specialize (G k (or_intror Hk)). cbn [get] in G.
  destruct (key_eq_dec k1 k) as [->|N]; [contradiction | exact G].
Qed.

Lemma matches_app (a b : list jsstring) :
  concat (map tickerMatches (a ++ b))
  = concat (map tickerMatches a) ++ concat (map tickerMatches b).
Proof. now rewrite map_app, concat_app. Qed.

Lemma merge_is_extraction (a b : list jsstring) :
  mergeCounts (extractTickers a) (extractTickers b) = extractTickers (a ++ b).
Proof.
  apply object_ext.
  - apply mergeCounts_wf, extractTickers_wf.
  - rewrite keys_mergeCounts, !extractTickers_spec, !keys_countTickers.
    rewrite matches_app. cbn [keys map]. rewrite firstSeen_idem.
    unfold firstSeen. now rewrite fold_left_app.
  - intros k _. rewrite mergeCounts_get by apply extractTickers_wf.
    rewrite !extractTickers_spec, !get_countTickers, matches_app.
    set (ma := concat (map tickerMatches a)).
    set (mb := concat (map tickerMatches b)).
    rewrite count_occ_app. cbn [get or0].
    destruct (in_dec key_eq_dec k mb) as [Ib|Ib];
      destruct (in_dec key_eq_dec k ma) as [Ia|Ia];
      destruct (in_dec key_eq_dec k (ma ++ mb)) as [Iab|Iab];
      cbn [addCount or0];
      try (exfalso; apply Iab; apply in_or_app; tauto);
      try (exfalso; apply in_app_or in Iab; tauto).
    + f_equal; lia.
    + rewrite (proj1 (count_occ_not_In key_eq_dec ma k) Ia). f_equal; lia.
    + rewrite (proj1 (count_occ_not_In key_eq_dec mb k) Ib). f_equal; lia.
    + reflexivity.
Qed.

Lemma mergeAll_is_extraction (tss : list (list jsstring)) :
  forall a, mergeAll (map extractTickers tss) (extractTickers a)
            = extractTickers (a ++ concat tss).
Proof.
  induction tss as [|t tss IH]; intros a.
  - cbn. now rewrite app_nil_r.
  - cbn [map mergeAll fold_left concat].
    fold (mergeAll (map extractTickers tss)
                   (mergeCounts (extractTickers a) (extractTickers t))).
    rewrite merge_is_extraction, IH, app_assoc. reflexivity.
Qed.

Lemma run_report dur pp (l : list jsstring) (n : nat) (startTime : Z)
      (w w1 : world) (evs : list event) :
  scrapeAndPrint dur pp l n startTime w = (Ok tt, w1, evs) ->
  reported evs
  = reportLines (mergeAll (harvests pp (launches w) (length l)) [])
                (elapsed (clock w1) startTime)
      ++ [Log LogAllProcessed].
Proof.
  intros R. rewrite scrapeAndPrint_run in R.
  pose proof (forAccounts_cases dur pp n l [] w) as FA.
  destruct (forAccounts dur pp n l [] w) as [[[tally|e|] w2] t2];
    try discriminate.
  destruct FA as [Fm Ft]. destruct (Ft tally eq_refl) as [-> _].
  inversion R; subst.
  rewrite !reported_app, Fm. cbn [app]. f_equal.
  unfold reportLines, reported. apply forallb_filter_id.
  apply forallb_forall. intros e He. apply in_map_iff in He.
  destruct He as [k [<- _]]. reflexivity.
Qed.

(** X11. Merging the counts of the sources one after the other gives exactly
    the object, keys and counts, that one extraction over all the articles of
    all the sources in that order would give; its counts sum to the number of
    matches in all these articles; and this is the tally that a run which
    returns reports. *)
Theorem tally_is_one_extraction_over_all_articles :
  (forall tss : list (list jsstring),
      mergeAll (map extractTickers tss) [] = extractTickers (concat tss)) /\
  (forall tss : list (list jsstring),
      total (mergeAll (map extractTickers tss) [])
      = Z.of_nat (length (concat (map tickerMatches (concat tss))))) /\
  (forall dur pp (l : list jsstring) (n : nat) (startTime : Z)
          (w w1 : world) (evs : list event),
      scrapeAndPrint dur pp l n startTime w = (Ok tt, w1, evs) ->
      reported evs
      = reportLines
          (extractTickers
             (concat (map (fun i => tweetsOf (pp i))
                          (seq (launches w) (length l)))))
          (elapsed (clock w1) startTime)
          ++ [Log LogAllProcessed]).
Proof.
  assert (M : forall tss : list (list jsstring),
             mergeAll (map extractTickers tss) [] = extractTickers (concat tss)).
  { intros tss. apply (mergeAll_is_extraction tss []). }
  split; [exact M|]. split.
  - intros tss. rewrite M, extractTickers_spec, countTickers_total.
    cbn [total fold_right]. lia.
  - intros dur pp l n startTime w w1 evs R.
    rewrite (run_report _ _ _ _ _ _ _ _ R). unfold harvests.
    rewrite <- (map_map (fun i => tweetsOf (pp i)) extractTickers), M.
    reflexivity.
Qed.

Lemma tally_is_one_extraction_over_all_articles_witness :
  reported (snd (scrapeAndPrint oneSecond twoSources
                   [str "Barchart"; str "RoyLMattox"] 3 0 (mkWorld 0 0)))
  = reportLines
      (extractTickers
         (concat (map (fun i => tweetsOf (twoSources i)) (seq 0 2)))) 0
      ++ [Log LogAllProcessed].
Proof.
  apply (proj2 (proj2 tally_is_one_extraction_over_all_articles)
               oneSecond twoSources [str "Barchart"; str "RoyLMattox"] 3 0%Z
               (mkWorld 0 0) (mkWorld 24000 2)).
  vm_compute. reflexivity.
Defined.

Lemma keys_mergeAll (rs : list jsobject) :
  forall all, keys (mergeAll rs all)
              = firstSeen (concat (map keys rs)) (keys all).
Proof.
  induction rs as [|r rs IH]; intros all; [reflexivity|].
  cbn [mergeAll fold_left map concat]. fold (mergeAll rs (mergeCounts all r)).
  rewrite IH, keys_mergeCounts. unfold firstSeen. now rewrite fold_left_app.
Qed.

(** X12. An object lists its symbols in the order in which they were first
    written, and so does the report of a run: the keys of the counts of a
    harvest are the distinct matches of its articles in their order of first
    occurrence, and the keys of a tally are the distinct symbols of the
    sources in their order of first occurrence, source by source.  No symbol
    is listed twice, none is lost, and a symbol met for the first time goes
    last. *)
Theorem symbols_are_listed_in_order_of_first_mention :
  (forall tweets : list jsstring,
      keys (extractTickers tweets)
      = firstSeen (concat (map tickerMatches tweets)) []) /\
  (forall (rs : list jsobject) (all : jsobject),
      keys (mergeAll rs all) = firstSeen (concat (map keys rs)) (keys all)) /\
  (forall ms ks : list jsstring,
      NoDup ks ->
      NoDup (firstSeen ms ks) /\
      forall x, In x (firstSeen ms ks) <-> In x ks \/ In x ms) /\
  (forall (ms ks : list jsstring) (m : jsstring),
      firstSeen (ms ++ [m]) ks
      = if in_dec key_eq_dec m (firstSeen ms ks)
        then firstSeen ms ks
        else firstSeen ms ks ++ [m]).
Proof.
  split; [|split; [|split]].
  - intros tweets. rewrite extractTickers_spec, keys_countTickers. reflexivity.
  - exact keys_mergeAll.
  - intros ms ks N. split; [now apply NoDup_firstSeen | apply In_firstSeen].
  - intros ms ks m. apply firstSeen_last.
Qed.

Lemma symbols_are_listed_in_order_of_first_mention_witness :
  NoDup (firstSeen [str "$TSLA"; str "$AAPL"; str "$TSLA"; str "$GME"]
                   [str "$AAPL"]) /\
  keys (mergeAll [resultsB; resultsA] [(str "$TSLA", 1%Z)])
  = [str "$TSLA"; str "$AAPL"].
Proof.
  split.
  - apply (proj1 (proj2 (proj2 symbols_are_listed_in_order_of_first_mention))
                 [str "$TSLA"; str "$AAPL"; str "$TSLA"; str "$GME"]
                 [str "$AAPL"]).
    repeat constructor. intros [].
  - rewrite (proj1 (proj2 symbols_are_listed_in_order_of_first_mention)).
    vm_compute. reflexivity.
Defined.

(** ** The sum of the counts *)

Lemma sumZ_cons (x : Z) (l : list Z) : sumZ (x :: l) = (x + sumZ l)%Z.
Proof. reflexivity. Qed.

Lemma total_cons (k : jsstring) (v : Z) (o : jsobject) :
  total ((k, v) :: o) = (v + total o)%Z.
Proof. reflexivity. Qed.

Lemma total_keys (o : jsobject) :
  wf o -> total o = sumZ (map (fun k => or0 (get o k)) (keys o)).
Proof.
  induction o as [|[k v] o IH]; intros W; [reflexivity|].
  inversion W as [|? ? Nk Nd]; subst.
  rewrite total_cons, (IH Nd). cbn [keys map fst]. fold (keys o).
  rewrite sumZ_cons. cbn [get]. destruct (key_eq_dec k k); [|congruence].
  cbn [or0]. f_equal. f_equal. apply map_ext_in. intros x Hx.
  destruct (key_eq_dec k x) as [->|N]; [contradiction | reflexivity].
Qed.

Lemma total_merge_fold (results : jsobject) (ks : list jsstring) :
  forall all,
    total (fold_left
             (fun all ticker =>
                set all ticker (or0 (get all ticker) + or0 (get results ticker))%Z)
             ks all)
    = (total all + sumZ (map (fun k => or0 (get results k)) ks))%Z.
Proof.
  induction ks as [|k ks IH]; intros all.
  - cbn [fold_left map]. change (sumZ []) with 0%Z. lia.
  - cbn [fold_left map]. rewrite IH, total_set, sumZ_cons. lia.
Qed.

Lemma total_mergeCounts (all results : jsobject) :
  wf results ->
  total (mergeCounts all results) = (total all + total results)%Z.
Proof.
  intros W. unfold mergeCounts. rewrite total_merge_fold.
  now rewrite <- total_keys.
Qed.

(** X13. A merge loses and invents nothing: the counts of a tally sum to what
    the tally held before plus the sums of the counts of the sources merged
    into it. *)
Theorem merge_preserves_the_total :
  forall (rs : list jsobject) (all : jsobject),
    Forall wf rs ->
    total (mergeAll rs all) = (total all + sumZ (map total rs))%Z.
Proof.
  intros rs all W. revert all.
  induction W as [|r rs Wr _ IH]; intros all.
  { cbn [mergeAll fold_left map]. change (sumZ []) with 0%Z. lia. }
  cbn [mergeAll fold_left map]. fold (mergeAll rs (mergeCounts all r)).
  rewrite IH, total_mergeCounts, sumZ_cons by assumption. lia.
Qed.

Lemma merge_preserves_the_total_witness :
  total (mergeAll [resultsA; resultsB; resultsC] [(str "$GME", 4%Z)])
  = (total [(str "$GME", 4%Z)]
     + sumZ (map total [resultsA; resultsB; resultsC]))%Z.
Proof.
  apply (merge_preserves_the_total [resultsA; resultsB; resultsC]).
  repeat constructor; cbn; intuition discriminate.
Defined.

(** ** What the first run decides *)






(** ** The lines of a report *)

(** X15. The report of a run that returns has exactly one line for each
    distinct symbol found in the articles of its sources, in the order in
    which these symbols were first met, followed by the closing line: no
    symbol has two lines, every symbol is a sigil with three or four word
    characters, the count printed for a symbol is the number of its matches
    in all these articles, so at least 1, and all the lines carry the same
    number of minutes. *)
Theorem report_has_one_line_per_symbol :
  forall dur pp (l : list jsstring) (n : nat) (startTime : Z)
         (w w1 : world) (evs : list event),
    scrapeAndPrint dur pp l n startTime w = (Ok tt, w1, evs) ->
    let texts := concat (map (fun i => tweetsOf (pp i))
                             (seq (launches w) (length l))) in
    let found := concat (map tickerMatches texts) in
    let tally := extractTickers texts in
    reported evs
    = map (fun ticker =>
             Log (LogMention ticker
                             (Z.of_nat (count_occ key_eq_dec found ticker))
                             (elapsed (clock w1) startTime)))
          (firstSeen found [])
        ++ [Log LogAllProcessed] /\
    keys tally = firstSeen found [] /\
    NoDup (firstSeen found []) /\
    (forall k, In k (firstSeen found []) <-> In k found) /\
    forall k, In k found ->
              is_ticker k /\ (1 <= Z.of_nat (count_occ key_eq_dec found k))%Z
              /\ get tally k = Some (Z.of_nat (count_occ key_eq_dec found k)).
Proof.
  intros dur pp l n startTime w w1 evs R texts found tally.
  assert (K : keys tally = firstSeen found []).
  { unfold tally. rewrite extractTickers_spec, keys_countTickers. reflexivity. }
  assert (G : forall k, In k found ->
                        get tally k
                        = Some (Z.of_nat (count_occ key_eq_dec found k))).
  { intros k Hk. unfold tally. rewrite extractTickers_spec, get_countTickers.
    fold found. destruct (in_dec key_eq_dec k found); [|contradiction].
    cbn [get or0]. f_equal. }
  assert (I : forall k, In k (firstSeen found []) <-> In k found).
  { intros k. rewrite In_firstSeen. cbn. tauto. }
  split; [|split; [exact K|split; [|split; [exact I|]]]].
  - rewrite (run_report _ _ _ _ _ _ _ _ R). unfold harvests.
    rewrite <- (map_map (fun i => tweetsOf (pp i)) extractTickers).
    rewrite (mergeAll_is_extraction _ []). cbn [app]. fold texts. fold tally.
    unfold reportLines. rewrite K. f_equal. apply map_ext_in.
    intros k Hk. apply I in Hk. now rewrite (G k Hk).
  - apply NoDup_firstSeen. constructor.
  - intros k Hk. pose proof (G k Hk) as Gk. apply get_In in Gk.
    unfold tally in Gk. apply extractTickers_keys in Gk.
    destruct Gk as [T P]. repeat split; try assumption. now apply G.
Qed.

Lemma report_has_one_line_per_symbol_witness :
  reported (snd (scrapeAndPrint oneSecond twoSources
                   [str "Barchart"; str "RoyLMattox"] 3 0 (mkWorld 0 0)))
  = [Log (LogMention (str "$TSLA") 2 0); Log (LogMention (str "$AAPL") 2 0);
     Log (LogMention (str "$GME") 2 0); Log LogAllProcessed].
Proof.
  refine (eq_trans
            (proj1 (report_has_one_line_per_symbol oneSecond twoSources
                      [str "Barchart"; str "RoyLMattox"] 3 0%Z (mkWorld 0 0)
                      (mkWorld 24000 2) _ _)) _).
  - vm_compute. reflexivity.
  - vm_compute. reflexivity.
Defined.

(** ** Following the scroll loop for longer *)

Lemma scrollLoop_more dur (page : renderer) (account : jsstring) (n : nat) :
  forall (m cycle : nat) (h : Z) (w : world) (o : outcome unit) (w' : world)
         (evs : list event),
    scrollLoop dur n page account cycle h w = (o, w', evs) ->
    o <> OutOfFuel -> n <= m ->
    scrollLoop dur m page account cycle h w = (o, w', evs).
Proof.
  induction n as [|n IH]; intros m cycle h w o w' evs R N L.
  - inversion R. congruence.
  - destruct m as [|m]; [lia|]. cbn [scrollLoop] in *. revert R. run.
    destruct (autoScroll_ok page cycle); [|trivial].
    destruct (heights page (S cycle)) as [h1|]; [|trivial].
    destruct (h1 =? h)%Z; [trivial|].
    destruct (scrollLoop dur n page account (S cycle) h1 _)
      as [[o1 w1] t1] eqn:E.
    intros R. assert (N1 : o1 <> OutOfFuel).
    { intros ->. inversion R. congruence. }
    rewrite (IH m _ _ _ _ _ _ E N1 ltac:(lia)). exact R.
Qed.

Lemma scrapeTwitter_more dur pp (n m : nat) (account : jsstring) (w : world)
      (o : outcome jsobject) (w' : world) (evs : list event) :
  scrapeTwitter dur pp n account w = (o, w', evs) ->
  o <> OutOfFuel -> n <= m ->
  scrapeTwitter dur pp m account w = (o, w', evs).
Proof.
  unfold scrapeTwitter, scrollToEnd. run. intros R N L. revert R.
  destruct (launch_ok (pp (launches w))); [|trivial].
  destruct (newPage_ok (pp (launches w))); [|trivial].
  destruct (goto_ok (pp (launches w))); [|trivial].
  destruct (heights (pp (launches w)) 0) as [h0|]; [|trivial].
  destruct (scrollLoop dur n (pp (launches w)) account 0 h0 _)
    as [[o1 w1] t1] eqn:E.
  intros R. assert (N1 : o1 <> OutOfFuel).
  { intros ->. inversion R. congruence. }
  rewrite (scrollLoop_more dur _ _ _ m _ _ _ _ _ _ E N1 L). exact R.
Qed.

Lemma forAccounts_more dur pp (n m : nat) (l : list jsstring) :
  forall (all : jsobject) (w : world) (tally : jsobject) (w' : world)
         (evs : list event),
    forAccounts dur pp n l all w = (Ok tally, w', evs) -> n <= m ->
    forAccounts dur pp m l all w = (Ok tally, w', evs).
Proof.
  induction l as [|a l IH]; intros all w tally w' evs R L; [exact R|].
  cbn [forAccounts] in *. unfold bind, log in *.
  destruct (scrapeTwitter dur pp n a w) as [[o1 w1] t1] eqn:E.
  destruct o1 as [res| |]; try discriminate.
  rewrite (scrapeTwitter_more dur pp n m a w _ _ _ E ltac:(discriminate) L).
  destruct (forAccounts dur pp n l (mergeCounts all res) w1)
    as [[o2 w2] t2] eqn:E2.
  destruct o2 as [t| |]; try discriminate.
  rewrite (IH _ _ _ _ _ E2 L). exact R.
Qed.

(** X5. Nothing bounds the scroll loop: when the sources before it have been
    harvested and a harvest gets as far as the loop on a page whose height
    differs from one measurement to the next for ever, that harvest is still
    scrolling after any number of cycles; it never returns, never closes its
    browser, and the run it belongs to, whatever its place in the run, never
    prints its report. *)
Theorem harvest_never_ends_on_a_page_that_keeps_changing :
  forall dur pp (before : list jsstring) (account : jsstring)
         (rest : list jsstring) (startTime : Z) (n : nat) (w w1 : world)
         (tally : jsobject) (t1 : list event),
    forAccounts dur pp n before [] w = (Ok tally, w1, t1) ->
    let browser := pp (launches w1) in
    launch_ok browser = true -> newPage_ok browser = true ->
    goto_ok browser = true ->
    (forall i, autoScroll_ok browser i = true) ->
    (forall i, exists x y, heights browser i = Some x
                           /\ heights browser (S i) = Some y /\ x <> y) ->
    forall m : nat,
      n <= m ->
      fst (fst (scrapeTwitter dur pp m account w1)) = OutOfFuel /\
      cycles (snd (scrapeTwitter dur pp m account w1)) = m /\
      closes (snd (scrapeTwitter dur pp m account w1)) = 0 /\
      fst (fst (scrapeAndPrint dur pp (before ++ account :: rest) m
                               startTime w))
      = OutOfFuel /\
      reported (snd (scrapeAndPrint dur pp (before ++ account :: rest) m
                                    startTime w))
      = [].
Proof.
  intros dur pp before account rest startTime n w w1 tally t1 FB browser
         Lo No Go A D m Lm.
  assert (ST : exists w' evs,
             scrapeTwitter dur pp m account w1 = (OutOfFuel, w', evs)
             /\ cycles evs = m /\ closes evs = 0).
  { unfold scrapeTwitter, scrollToEnd. run. fold browser.
    rewrite Lo, No, Go.
    destruct (D 0) as [x [y [Hx _]]]. rewrite Hx.
    destruct (scrollLoop_keeps_going dur browser account A D m 0 x
                (mkWorld (clock w1 + dur Launch + dur NewPage
                          + dur (Goto account) + dur EvalHeight)
                         (S (launches w1))) Hx)
      as [w' [evs [R [C [Cl _]]]]].
    rewrite R. eexists; eexists. split; [reflexivity|].
    change (cycles ([Launch; NewPage; Goto account; Log (LogStartScroll account);
                     EvalHeight] ++ evs) = m
            /\ closes ([Launch; NewPage; Goto account;
                        Log (LogStartScroll account); EvalHeight] ++ evs) = 0).
    rewrite cycles_app, closes_app, C, Cl. split; reflexivity. }
  destruct ST as [w' [evs [R [C Cl]]]]. rewrite R. cbn [fst snd].
  split; [reflexivity|]. split; [assumption|]. split; [assumption|].
  assert (RP : scrapeAndPrint dur pp (before ++ account :: rest) m startTime w
               = (OutOfFuel, w', t1 ++ [Log (LogScraping account)] ++ evs)).
  { rewrite scrapeAndPrint_run, forAccounts_app. unfold bind at 1.
    rewrite (forAccounts_more dur pp n m before _ _ _ _ _ FB Lm).
    cbn [forAccounts]. unfold bind at 1. unfold log at 1. unfold bind at 1.
    rewrite R. reflexivity. }
  rewrite RP. cbn [fst snd]. split; [reflexivity|].
  pose proof (forAccounts_cases dur pp n before [] w) as FC. rewrite FB in FC.
  destruct FC as [Bp _].
  pose proof (scrapeTwitter_cases dur pp m account w1) as SC. rewrite R in SC.
  destruct SC as [_ [Rp _]]. now rewrite !reported_app, Bp, Rp.
Qed.

Lemma harvest_never_ends_on_a_page_that_keeps_changing_witness :
  fst (fst (scrapeAndPrint oneSecond thirdGrowing
              ([str "Barchart"; str "RoyLMattox"] ++ str "yuriymatso"
                 :: [str "allstarcharts"])
              40 0 (mkWorld 0 0)))
  = OutOfFuel /\
  reported (snd (scrapeAndPrint oneSecond thirdGrowing
                   ([str "Barchart"; str "RoyLMattox"] ++ str "yuriymatso"
                      :: [str "allstarcharts"])
                   40 0 (mkWorld 0 0)))
  = [] /\
  cycles (snd (scrapeTwitter oneSecond thirdGrowing 40 (str "yuriymatso")
                             (mkWorld 24000 2))) = 40.
Proof.
  assert (H := harvest_never_ends_on_a_page_that_keeps_changing
                 oneSecond thirdGrowing [str "Barchart"; str "RoyLMattox"]
                 (str "yuriymatso") [str "allstarcharts"] 0%Z 1
                 (mkWorld 0 0) (mkWorld 24000 2)
                 [(str "$AAPL", 2%Z)]
                 (snd (forAccounts oneSecond thirdGrowing 1
                                   [str "Barchart"; str "RoyLMattox"] []
                                   (mkWorld 0 0)))).
  cbv zeta in H.
  assert (D : forall i, exists x y,
               heights (thirdGrowing 2) i = Some x
               /\ heights (thirdGrowing 2) (S i) = Some y /\ x <> y).
  { intros i. exists (Z.of_nat i * 800)%Z, (Z.of_nat (S i) * 800)%Z.
    cbn [thirdGrowing growingPage heights]. repeat split. lia. }
  specialize (H ltac:(vm_compute; reflexivity) eq_refl eq_refl eq_refl
                (fun _ => eq_refl) D 40 ltac:(lia)).
  destruct H as [_ [C [_ [O Rp]]]]. repeat split; assumption.
Defined.

(** ** The counts of a harvest, in the words of the specification *)

Lemma matches_scan (tweets : list jsstring) :
  concat (map tickerMatches tweets)
  = concat (map (fun t => scanTickers t 0) tweets).
Proof. f_equal. apply map_ext. exact tickerMatches_scan. Qed.

Lemma extractTickers_snoc (before : list jsstring) (text : jsstring) :
  extractTickers (before ++ [text])
  = fold_left countTicker (scanTickers text 0) (extractTickers before).
Proof.
  rewrite !extractTickers_spec, matches_app, fold_left_app.
  cbn [map concat]. now rewrite app_nil_r, tickerMatches_scan.
Qed.

Lemma extractTickers_one (text : jsstring) :
  extractTickers [text] = fold_left countTicker (scanTickers text 0) [].
Proof. exact (extractTickers_snoc [] text). Qed.

Lemma extractTickers_scan (tweets : list jsstring) :
  let found := concat (map (fun t => scanTickers t 0) tweets) in
  total (extractTickers tweets) = Z.of_nat (length found) /\
  forall k, or0 (get (extractTickers tweets) k)
            = Z.of_nat (count_occ key_eq_dec found k).
Proof.
  cbv zeta. rewrite extractTickers_spec, matches_scan. split.
  - now rewrite countTickers_total.
  - intros k. now rewrite countTickers_get.
Qed.

Lemma scrapeTwitter_returns dur pp (n : nat) (account : jsstring)
      (w w' : world) (res : jsobject) (evs : list event) :
  scrapeTwitter dur pp n account w = (Ok res, w', evs) ->
  res = extractTickers (tweetsOf (pp (launches w))).
Proof.
  intros R. pose proof (scrapeTwitter_cases dur pp n account w) as C.
  rewrite R in C. now apply C.
Qed.

(** C4. The counting that a harvest runs over its texts ([extractTickers],
    lines 63 to 74) is the Symbol Extractor: on one text block its counts sum
    to the number of non-overlapping matches of "sigil plus 3 to 4 word
    characters" that a left-to-right scan of the text finds on its own; each
    symbol's count is the number of occurrences of its literal among these
    matches; a text with no match gives the empty mapping; whatever texts
    came before in the same harvest, a text adds one to the count of its
    symbol for each of its matches, in order; the extractor on any state of
    the regex object gives the same mapping; "$AAPL up, $AAPL again, $TSLA"
    gives {$AAPL: 2, $TSLA: 1} and a text without symbols gives {}; and these
    are the counts that a harvest which returns hands back, for the texts of
    its page. *)
Theorem extractor_counts_matches :
  (forall text : jsstring,
      let counts := extractTickers [text] in
      total counts = Z.of_nat (length (scanTickers text 0)) /\
      (forall k, or0 (get counts k)
                 = Z.of_nat (count_occ key_eq_dec (scanTickers text 0) k)) /\
      (scanTickers text 0 = [] -> counts = [])) /\
  (forall (before : list jsstring) (text : jsstring),
      extractTickers (before ++ [text])
      = fold_left countTicker (scanTickers text 0) (extractTickers before)) /\
  (forall (last : nat) (text : jsstring),
      snd (symbolExtractor last text) = extractTickers [text]) /\
  extractTickers [str "$AAPL up, $AAPL again, $TSLA"]
  = [(str "$AAPL", 2%Z); (str "$TSLA", 1%Z)] /\
  extractTickers [str "no symbols here"] = [] /\
  (forall dur pp (n : nat) (account : jsstring) (w w' : world)
          (res : jsobject) (evs : list event),
      scrapeTwitter dur pp n account w = (Ok res, w', evs) ->
      let texts := tweetsOf (pp (launches w)) in
      let found := concat (map (fun t => scanTickers t 0) texts) in
      res = extractTickers texts /\
      total res = Z.of_nat (length found) /\
      forall k, or0 (get res k) = Z.of_nat (count_occ key_eq_dec found k)).
Proof.
  split; [|split; [|split; [|split; [|split]]]].
  - intros text counts. subst counts. rewrite extractTickers_one.
    split; [|split].
    + now rewrite countTickers_total.
    + intros k. now rewrite countTickers_get.
    + intros ->. reflexivity.
  - exact extractTickers_snoc.
  - intros last text.
    rewrite symbolExtractor_spec, extractTickers_one, tickerMatches_scan.
    reflexivity.
  - vm_compute. reflexivity.
  - vm_compute. reflexivity.
  - intros dur pp n account w w' res evs R texts found.
    pose proof (scrapeTwitter_returns dur pp n account w w' res evs R) as E.
    fold texts in E. subst res. split; [reflexivity|].
    exact (extractTickers_scan texts).
Qed.

Lemma extractor_counts_matches_witness :
  extractTickers [str "$ab and $ 12"] = [] /\
  total (extractTickers (tweetsOf (steadyBrowsers 0 0)))
  = Z.of_nat (length (concat (map (fun t => scanTickers t 0)
                                  (tweetsOf (steadyBrowsers 0 0))))).
Proof.
  split.
  - apply (proj1 extractor_counts_matches (str "$ab and $ 12")).
    reflexivity.
  - destruct (proj2 (proj2 (proj2 (proj2 (proj2 extractor_counts_matches))))
                oneSecond (steadyBrowsers 0) 1 (str "Barchart")
                (mkWorld 0 0)
                (snd (fst (scrapeTwitter oneSecond (steadyBrowsers 0) 1
                                         (str "Barchart") (mkWorld 0 0))))
                (extractTickers (tweetsOf (steadyBrowsers 0 0)))
                (snd (scrapeTwitter oneSecond (steadyBrowsers 0) 1
                                    (str "Barchart") (mkWorld 0 0)))
                ltac:(vm_compute; reflexivity))
      as [_ [T _]].
    exact T.
Defined.

(** C10. The pattern has no boundary after the word characters.  Wherever a
    text of a harvest has a sigil followed by a maximal run of k >= 3 word
    characters, the matches of the text are those of what precedes the sigil,
    then one match made of the sigil and the first min(k, 4) characters of
    the run, then those of what follows the run, and the counting of the
    harvest ([extractTickers]) records exactly these: on that text alone, and
    added to the counts of the texts before it; "$ABCDE" gives {$ABCD: 1};
    every key of the counts of a harvest is the sigil followed by exactly 3
    or 4 word characters, with a count of at least 1; the same holds of the
    extractor on any state of the regex object, and of the mapping that a
    harvest which returns hands back. *)
Theorem extractor_truncates_long_runs :
  (forall (before : list jsstring) (pre run post : jsstring),
      forallb is_word run = true -> 3 <= length run -> ends_run post ->
      let m := sigil :: firstn (Nat.min (length run) 4) run in
      tickerMatches (pre ++ sigil :: run ++ post)
      = tickerMatches pre ++ [m] ++ tickerMatches post /\
      extractTickers [pre ++ sigil :: run ++ post]
      = fold_left countTicker
          (tickerMatches pre ++ [m] ++ tickerMatches post) [] /\
      extractTickers (before ++ [pre ++ sigil :: run ++ post])
      = fold_left countTicker
          (tickerMatches pre ++ [m] ++ tickerMatches post)
          (extractTickers before) /\
      (tickerMatches pre = [] -> tickerMatches post = [] ->
       extractTickers [pre ++ sigil :: run ++ post] = [(m, 1%Z)])) /\
  extractTickers [str "$ABCDE"] = [(str "$ABCD", 1%Z)] /\
  (forall (tweets : list jsstring) (k : jsstring) (v : Z),
      In (k, v) (extractTickers tweets) -> is_ticker k /\ (1 <= v)%Z) /\
  (forall (last : nat) (text : jsstring),
      snd (symbolExtractor last text) = extractTickers [text]) /\
  (forall dur pp (n : nat) (account : jsstring) (w w' : world)
          (res : jsobject) (evs : list event) (k : jsstring) (v : Z),
      scrapeTwitter dur pp n account w = (Ok res, w', evs) ->
      In (k, v) res -> is_ticker k /\ (1 <= v)%Z).
Proof.
  split; [|split; [|split; [|split]]].
  - intros before pre run post W L E m.
    assert (T : scanTickers (pre ++ sigil :: run ++ post) 0
                = tickerMatches pre ++ [m] ++ tickerMatches post).
    { rewrite !tickerMatches_scan. now apply scan_at_run. }
    split; [now rewrite tickerMatches_scan|].
    split; [now rewrite extractTickers_one, T|].
    split; [now rewrite extractTickers_snoc, T|].
    intros P Q. rewrite extractTickers_one, T, P, Q. reflexivity.
  - vm_compute. reflexivity.
  - exact extractTickers_keys.
  - intros last text.
    rewrite symbolExtractor_spec, extractTickers_one, tickerMatches_scan.
    reflexivity.
  - intros dur pp n account w w' res evs k v R I.
    rewrite (scrapeTwitter_returns dur pp n account w w' res evs R) in I.
    exact (extractTickers_keys _ k v I).
Qed.

Lemma extractor_truncates_long_runs_witness :
  extractTickers [str "buy $AB, " ++ sigil :: str "GOOGL" ++ str " and $TSLA"]
  = fold_left countTicker
      (tickerMatches (str "buy $AB, ") ++ [str "$GOOG"]
         ++ tickerMatches (str " and $TSLA")) [] /\
  extractTickers [str "" ++ sigil :: str "ABCDE" ++ str ""]
  = [(str "$ABCD", 1%Z)] /\
  is_ticker (str "$ABCD").
Proof.
  split; [|split].
  - apply (proj1 extractor_truncates_long_runs []
             (str "buy $AB, ") (str "GOOGL") (str " and $TSLA"));
      [reflexivity | simpl; lia | reflexivity].
  - apply (proj1 extractor_truncates_long_runs []
             (str "") (str "ABCDE") (str ""));
      [reflexivity | simpl; lia | reflexivity | reflexivity | reflexivity].
  - apply (proj1 (proj2 (proj2 extractor_truncates_long_runs))
             [str "$ABCDE"] (str "$ABCD") 1%Z).
    vm_compute. left. reflexivity.
Defined.

(** ** The tally of a run against the results of its sources *)

Lemma mergeAll_additive (rs : list jsobject) :
  Forall wf rs ->
  (forall k, or0 (get (mergeAll rs []) k)
             = sumZ (map (fun r => or0 (get r k)) rs)) /\
  (forall k, In k (keys (mergeAll rs []))
             <-> exists r, In r rs /\ In k (keys r)) /\
  (forall rs', Permutation rs rs' ->
               forall k, get (mergeAll rs' []) k = get (mergeAll rs []) k).
Proof.
  intros W. split; [|split].
  - intros k. rewrite mergeAll_get by assumption.
    rewrite fold_addCount_sum, map_map. cbn. reflexivity.
  - intros k. rewrite keys_get, mergeAll_get by assumption.
    rewrite fold_addCount_None. split.
    + intros H.
      destruct (Exists_dec (fun r => get r k <> None) rs) as [E|E].
      { intros r. destruct (get r k); [left; discriminate | right; tauto]. }
      * apply Exists_exists in E. destruct E as [r [Hr Hk]].
        exists r. split; [assumption | now apply keys_get].
      * exfalso. apply H. split; [reflexivity|].
        apply Forall_map. apply Forall_forall. intros r Hr.
        destruct (get r k) eqn:G; [|reflexivity].
        exfalso. apply E. apply Exists_exists. exists r.
        split; [assumption | congruence].
    + intros [r [Hr Hk]] [_ F]. apply keys_get in Hk. apply Hk.
      rewrite Forall_map, Forall_forall in F. now apply F.
  - intros rs' P k.
    assert (W' : Forall wf rs') by (eapply Permutation_Forall; eassumption).
    rewrite !mergeAll_get by assumption.
    symmetry. apply fold_addCount_perm. now apply Permutation_map.
Qed.

Lemma mergeAll_example (rs : list jsobject) :
  Permutation [resultsA; resultsB; resultsC] rs ->
  mergeAll rs [] = [(str "$AAPL", 3%Z); (str "$TSLA", 3%Z)].
Proof.
  intros P. apply permutations_of_three in P. cbn [In] in P.
  destruct P as [<-|[<-|[<-|[<-|[<-|[<-|[]]]]]]]; vm_compute; reflexivity.
Qed.

Lemma forAccounts_tally dur pp (n : nat) (l : list jsstring) (w w' : world)
      (tally : jsobject) (evs : list event) :
  forAccounts dur pp n l [] w = (Ok tally, w', evs) ->
  tally = mergeAll (harvests pp (launches w) (length l)) [].
Proof.
  intros R. pose proof (forAccounts_cases dur pp n l [] w) as C.
  rewrite R in C. destruct C as [_ C]. now apply C.
Qed.

(** C6. The tally that the loop over the sources builds ([forAccounts], lines
    90 to 99) is additive and commutative.  When the loop returns, its tally
    is the merge, one after the other, of the results of its harvests; it
    maps each symbol to the sum of its counts over these results; its keys
    are the symbols of the results; a loop over sources whose results are the
    same in another order ends with the same entry for every symbol; and when
    the results are {$AAPL:2}, {$AAPL:1,$TSLA:3} and {} in any order the
    tally is {$AAPL:3,$TSLA:3}, which is what the run then prints.  The same
    holds of the merge of any list of mappings. *)
Theorem merge_additive_commutative :
  (forall dur pp (n : nat) (l : list jsstring) (w w' : world)
          (tally : jsobject) (evs : list event),
      forAccounts dur pp n l [] w = (Ok tally, w', evs) ->
      let rs := harvests pp (launches w) (length l) in
      tally = mergeAll rs [] /\
      (forall k, or0 (get tally k) = sumZ (map (fun r => or0 (get r k)) rs)) /\
      (forall k, In k (keys tally) <-> exists r, In r rs /\ In k (keys r)) /\
      (forall dur2 pp2 (n2 : nat) (l2 : list jsstring) (w2 w2' : world)
              (tally2 : jsobject) (evs2 : list event),
          forAccounts dur2 pp2 n2 l2 [] w2 = (Ok tally2, w2', evs2) ->
          Permutation rs (harvests pp2 (launches w2) (length l2)) ->
          forall k, get tally2 k = get tally k) /\
      (Permutation [resultsA; resultsB; resultsC] rs ->
       tally = [(str "$AAPL", 3%Z); (str "$TSLA", 3%Z)])) /\
  (forall dur pp (l : list jsstring) (n : nat) (startTime : Z) (w w1 : world)
          (evs : list event),
      scrapeAndPrint dur pp l n startTime w = (Ok tt, w1, evs) ->
      let rs := harvests pp (launches w) (length l) in
      (forall k c em,
          In (Log (LogMention k c em)) evs ->
          c = sumZ (map (fun r => or0 (get r k)) rs)) /\
      (Permutation [resultsA; resultsB; resultsC] rs ->
       reported evs
       = [Log (LogMention (str "$AAPL") 3 (elapsed (clock w1) startTime));
          Log (LogMention (str "$TSLA") 3 (elapsed (clock w1) startTime));
          Log LogAllProcessed])) /\
  (forall rs : list jsobject,
      Forall wf rs ->
      (forall k, or0 (get (mergeAll rs []) k)
                 = sumZ (map (fun r => or0 (get r k)) rs)) /\
      (forall k, In k (keys (mergeAll rs []))
                 <-> exists r, In r rs /\ In k (keys r)) /\
      (forall rs', Permutation rs rs' ->
                   forall k, get (mergeAll rs' []) k = get (mergeAll rs []) k)) /\
  (forall rs', Permutation [resultsA; resultsB; resultsC] rs' ->
               mergeAll rs' [] = [(str "$AAPL", 3%Z); (str "$TSLA", 3%Z)]).
Proof.
  split; [|split; [|split]].
  - intros dur pp n l w w' tally evs R rs.
    pose proof (forAccounts_tally dur pp n l w w' tally evs R) as E.
    fold rs in E. subst tally.
    destruct (mergeAll_additive rs (harvests_wf pp _ _)) as [S [K P]].
    split; [reflexivity|]. split; [exact S|]. split; [exact K|].
    split; [|apply mergeAll_example].
    intros dur2 pp2 n2 l2 w2 w2' tally2 evs2 R2 Pm k.
    rewrite (forAccounts_tally dur2 pp2 n2 l2 w2 w2' tally2 evs2 R2).
    now apply P.
  - intros dur pp l n startTime w w1 evs R rs.
    pose proof (run_report dur pp l n startTime w w1 evs R) as E.
    fold rs in E.
    destruct (mergeAll_additive rs (harvests_wf pp _ _)) as [S _].
    split.
    + intros k c em I.
      assert (I' : In (Log (LogMention k c em)) (reported evs)).
      { apply In_reported. split; [assumption | exact Logic.I]. }
      rewrite E in I'. apply in_app_or in I'.
      destruct I' as [I'|[I'|[]]]; [|discriminate].
      unfold reportLines in I'. apply in_map_iff in I'.
      destruct I' as [t [Et _]]. inversion Et; subst. apply S.
    + intros P. rewrite E, (mergeAll_example rs P). reflexivity.
  - exact mergeAll_additive.
  - exact mergeAll_example.
Qed.

Lemma merge_additive_commutative_witness :
  reported (snd (scrapeAndPrint oneSecond exampleSources
                   [str "Barchart"; str "RoyLMattox"; str "yuriymatso"]
                   1 0 (mkWorld 0 0)))
  = [Log (LogMention (str "$AAPL") 3 1); Log (LogMention (str "$TSLA") 3 1);
     Log LogAllProcessed] /\
  (or0 (get (mergeAll [resultsB; resultsC; resultsA] []) (str "$AAPL"))
   = sumZ (map (fun r => or0 (get r (str "$AAPL")))
               [resultsB; resultsC; resultsA])) /\
  mergeAll [resultsC; resultsB; resultsA] []
  = [(str "$AAPL", 3%Z); (str "$TSLA", 3%Z)].
Proof.
  split; [|split].
  - apply (proj2 (proj1 (proj2 merge_additive_commutative)
                    oneSecond exampleSources
                    [str "Barchart"; str "RoyLMattox"; str "yuriymatso"]
                    1 0%Z (mkWorld 0 0) (mkWorld 36000 3)
                    (snd (scrapeAndPrint oneSecond exampleSources
                            [str "Barchart"; str "RoyLMattox";
                             str "yuriymatso"]
                            1 0 (mkWorld 0 0)))
                    ltac:(vm_compute; reflexivity))).
    exact (Permutation_cons_append [resultsB; resultsC] resultsA).
  - apply (proj1 (proj2 (proj2 merge_additive_commutative))
             [resultsB; resultsC; resultsA]).
    repeat constructor; cbn; intuition discriminate.
  - apply (proj2 (proj2 (proj2 merge_additive_commutative))).
    apply (perm_trans (l' := [resultsC; resultsA; resultsB])).
    + apply Permutation_sym, (Permutation_cons_append [resultsA; resultsB]).
    + constructor. constructor.
Defined.

(** ** The minutes a later run reports *)

Lemma elapsed_later (finish start later : Z) :
  (start + interval <= later)%Z ->
  (elapsed finish later + 15 <= elapsed finish start)%Z.
Proof.
  unfold elapsed, interval. intros L.
  rewrite <- (Z.div_add (finish - later + 30000) 15 60000) by lia.
  apply Z.div_le_mono; lia.
Qed.

Lemma first_run_finishes_later dur pp (l : list jsstring) (n : nat)
      (startTime t : Z) :
  (forall e, 0 <= dur e)%Z ->
  (t <= finished (runAt t (scrapeAndPrint dur pp l n startTime)))%Z.
Proof.
  intros P. unfold runAt.
  pose proof (scrapeAndPrint_facts dur pp l n startTime (mkWorld t 0)) as F.
  cbv zeta in F. destruct F as [Ck _].
  destruct (scrapeAndPrint dur pp l n startTime (mkWorld t 0)) as [[o w] evs].
  cbn [fst snd clock finished] in *.
  pose proof (spent_nonneg dur evs P). lia.
Qed.

(** C2 (as amended).  The start timestamp is taken once, when [main] starts,
    and never again: every run, the first, the second and all later ones,
    reports round((report time - start of the process) / 60000) minutes.  The
    first run is triggered at that very instant, so for it this is the time
    since the start of the run.  When no call takes a negative time, every
    later run is triggered at least one interval after that instant, so for
    it this is not the time since the start of the run: the minutes it
    reports exceed those since its own start by at least 15. *)
Theorem runs_report_minutes_since_process_start :
  forall dur browsers (fuel : nat) (policy : bool) (t0 : Z) (n : nat),
    (exists r0 rest,
        main dur browsers fuel policy t0 n = r0 :: rest /\ trigger r0 = t0) /\
    (forall r ticker c em,
        In r (main dur browsers fuel policy t0 n) ->
        In (Log (LogMention ticker c em)) (output r) ->
        em = elapsed (finished r) t0) /\
    ((forall e, 0 <= dur e)%Z ->
     forall (i : nat) (r : run),
       nth_error (main dur browsers fuel policy t0 n) (S i) = Some r ->
       (t0 < trigger r)%Z /\ (t0 + interval <= trigger r)%Z /\
       (elapsed (finished r) (trigger r) + 15 <= elapsed (finished r) t0)%Z /\
       forall ticker c em,
         In (Log (LogMention ticker c em)) (output r) ->
         (elapsed (finished r) (trigger r) + 15 <= em)%Z).
Proof.
  intros dur browsers fuel policy t0 n.
  destruct (main_first dur browsers fuel policy t0 n) as [r0 [rest [E [E0 ER]]]].
  assert (A : forall r ticker c em,
             In r (main dur browsers fuel policy t0 n) ->
             In (Log (LogMention ticker c em)) (output r) ->
             em = elapsed (finished r) t0).
  { intros r ticker c em Hr Hm. rewrite E in Hr. destruct Hr as [<-|Hr].
    - subst r0. revert Hm. apply runAt_reports_since.
      apply scrapeAndPrint_reports_since.
    - destruct ER as [->| ->]; [destruct Hr|].
      eapply timerRuns_reports_since; eassumption. }
  split; [|split].
  - exists r0, rest. split; [assumption|]. subst r0. apply runAt_trigger.
  - exact A.
  - intros P i r N.
    assert (T : (t0 + interval <= trigger r)%Z).
    { rewrite E in N. cbn [nth_error] in N.
      destruct ER as [->| ->]; [destruct i; discriminate|].
      rewrite (timerRuns_trigger _ _ _ _ _ _ _ _ _ _ N).
      pose proof (first_run_finishes_later dur (browsers 0) accounts fuel
                    t0 t0 P) as F.
      rewrite <- E0 in F. unfold interval. lia. }
    pose proof (elapsed_later (finished r) t0 (trigger r) T) as L.
    split; [unfold interval in T; lia|]. split; [exact T|].
    split; [exact L|].
    intros ticker c em Hm.
    rewrite (A r ticker c em (nth_error_In _ _ N) Hm). exact L.
Qed.

Lemma runs_report_minutes_since_process_start_witness :
  In secondRun (main oneSecond steadyBrowsers 3 false 0 1) /\
  In (Log (LogMention (str "$AAPL") 10 19)) (output secondRun) /\
  19%Z = elapsed (finished secondRun) 0 /\
  nth_error (main halfSecond steadyBrowsers 3 false 0 1) 1 = Some secondRunHalf /\
  (0 < trigger secondRunHalf)%Z.
Proof.
  assert (I : In secondRun (main oneSecond steadyBrowsers 3 false 0 1)).
  { vm_compute. right. left. reflexivity. }
  assert (O : In (Log (LogMention (str "$AAPL") 10 19)) (output secondRun)).
  { vm_compute. do 131 right. left. reflexivity. }
  assert (N : nth_error (main halfSecond steadyBrowsers 3 false 0 1) 1
              = Some secondRunHalf).
  { vm_compute. reflexivity. }
  assert (P : forall e, (0 <= halfSecond e)%Z).
  { intros e. destruct e; cbn; lia. }
  split; [exact I|]. split; [exact O|]. split; [|split; [exact N|]].
  - exact (proj1 (proj2 (runs_report_minutes_since_process_start
                           oneSecond steadyBrowsers 3 false 0 1))
                 secondRun (str "$AAPL") 10%Z 19%Z I O).
  - exact (proj1 (proj2 (proj2 (runs_report_minutes_since_process_start
                                  halfSecond steadyBrowsers 3 false 0 1))
                        P 0 secondRunHalf N)).
Defined.
